(** * Filter syntax parts and their sequential composition

    A shallow embedding of [src/model/filters/syntax-parts.ts] (the
    [SyntaxPart] interface and its five implementing classes) and of the two
    composition loops [parseFilter] and [tryParseFilter] of the search-filter
    module, with its operation tables and the constructors of three of its
    filters, followed by the properties established about them.

    Conventions of the embedding:
    - a JavaScript string is the list of its code units, [list ascii]; the
      model therefore covers strings whose code units lie in 0..255, the
      range the source itself takes as "any character" ([[0, 255]]);
    - string positions, lengths and consumed counts are [nat];
    - [undefined] results are [None];
    - a call that may throw returns an [Outcome]. *)

From Stdlib Require Import Ascii String DecimalString DecimalNat.
From Stdlib Require Import NArith Arith Bool Lia List.
Import ListNotations.

Set Implicit Arguments.

(** ** JavaScript strings *)

Abbreviation jsstring := (list ascii).

Coercion list_ascii_of_string : string >-> list.

Definition charCode (c : ascii) : nat := nat_of_ascii c.

(** [String.prototype.slice] for non-negative integer bounds. *)
Definition slice (value : jsstring) (start stop : nat) : jsstring :=
  firstn (stop - start) (skipn start value).

(** [String.prototype.substring]: the bounds are swapped when out of order. *)
Definition substring (value : jsstring) (a b : nat) : jsstring :=
  slice value (Nat.min a b) (Nat.max a b).

(** Lower-casing of one code unit in 0..255: A-Z, and the Latin-1 capitals
    U+00C0..U+00DE except the multiplication sign U+00D7. *)
Definition isUpperCode (n : nat) : bool :=
  ((65 <=? n) && (n <=? 90)) ||
  ((192 <=? n) && (n <=? 214)) ||
  ((216 <=? n) && (n <=? 222)).

Definition toLowerCaseChar (c : ascii) : ascii :=
  if isUpperCode (charCode c) then ascii_of_nat (charCode c + 32) else c.

Definition toLowerCase (s : jsstring) : jsstring := map toLowerCaseChar s.

Fixpoint startsWith (s prefix : jsstring) : bool :=
  match prefix, s with
  | [], _ => true
  | p :: prefix', c :: s' => Ascii.eqb p c && startsWith s' prefix'
  | _ :: _, [] => false
  end.

(** lodash [_.repeat] of a one-character string. *)
Definition repeatChar (c : ascii) (n : nat) : jsstring := repeat c n.

(** Decimal rendering of a non-negative integer inside a template literal. *)
Definition numberToString (n : nat) : jsstring :=
  list_ascii_of_string (NilZero.string_of_uint (Nat.to_uint n)).

(** ** Numbers produced by [parseInt]

    [parseInt] is only ever applied to the text returned by
    [getParsedValue] for a digit-only part, so it is modelled on its
    leading run of decimal digits: [NaN] when that run is empty. Values
    are kept exact (no rounding to a double above 2^53). *)

Inductive JsNumber : Type :=
| NaN
| Num (n : N).

Definition isDigit (c : ascii) : bool :=
  (48 <=? charCode c) && (charCode c <=? 57).

Fixpoint parseDigits (acc : N) (s : jsstring) : N :=
  match s with
  | c :: s' =>
      if isDigit c
      then parseDigits (acc * 10 + N.of_nat (charCode c - 48)) s'
      else acc
  | [] => acc
  end.

Definition parseInt10 (s : jsstring) : JsNumber :=
  match s with
  | c :: _ => if isDigit c then Num (parseDigits 0 s) else NaN
  | [] => NaN
  end.

(** ** Exceptions *)

Inductive JsError : Type :=
| Error (message : string)
| TypeError.

Inductive Outcome (A : Type) : Type :=
| Returns (a : A)
| Throws (e : JsError).

Arguments Returns {A} a.
Arguments Throws {A} e.

Definition bind {A B : Type} (m : Outcome A) (k : A -> Outcome B) : Outcome B :=
  match m with
  | Returns a => k a
  | Throws e => Throws e
  end.

Notation "x <- m ;; k" := (bind m (fun x => k))
  (at level 61, m at next level, right associativity).

(** ** Match results, suggestions, parsed values *)

Inductive MatchType : Type := partial | full.

Record SyntaxMatch : Type := {
  type : MatchType;
  consumed : nat
}.

Definition isFull (m : SyntaxMatch) : bool :=
  match type m with full => true | partial => false end.

Record Suggestion : Type := {
  showAs : jsstring;
  value : jsstring;
  template : bool
}.

(** [string | number], the values a part can parse to. *)
Inductive PartValue : Type :=
| VString (s : jsstring)
| VNumber (n : JsNumber).

(** ** Character ranges *)

Definition CharRange : Type := (nat * nat)%type.

Definition charRange (charA : jsstring) (charB : option jsstring) : CharRange :=
  let code s := match s with c :: _ => charCode c | [] => 0 end in
  match charB with
  | Some (b :: rest) => (code charA, code (b :: rest))
  | _ => (code charA, code charA)
  end.

Definition matchesRange (code : nat) (range : CharRange) : bool :=
  (fst range <=? code) && (code <=? snd range).

Definition NUMBER_CHARS : CharRange := (48, 57).

Definition allowedBy (allowedCharRanges : list CharRange) (c : ascii) : bool :=
  existsb (matchesRange (charCode c)) allowedCharRanges.

(** The [for] loop of [getStringAt]: [rest] is the text from position [i]
    on; the result is the value of [i] when the loop exits, either because
    the text ran out or at the [break]. *)
Fixpoint getStringAt_loop (allowedCharRanges : list CharRange)
    (rest : jsstring) (i : nat) : nat :=
  match rest with
  | [] => i
  | nextChar :: rest' =>
      if allowedBy allowedCharRanges nextChar
      then getStringAt_loop allowedCharRanges rest' (S i)
      else i
  end.

Definition getStringAt (value : jsstring) (index : nat)
    (allowedCharRanges : list CharRange) : option jsstring :=
  let i := getStringAt_loop allowedCharRanges (skipn index value) index in
  if negb (i =? index) then Some (substring value index i)
  else if i =? length value then Some []
  else None.

Definition getNumberAt (value : jsstring) (index : nat) : option jsstring :=
  getStringAt value index [NUMBER_CHARS].

(** ** The [SyntaxPart] interface

    [S] is the type of the context handed to suggestion generators. The
    optional [context] argument is [None] when it is missing or falsy. *)

Record SyntaxPart (S : Type) : Type := {
  match_ : jsstring -> nat -> option SyntaxMatch;
  getSuggestions : jsstring -> nat -> option S -> list Suggestion;
  parse : jsstring -> nat -> Outcome PartValue
}.

Definition Generator (S : Type) : Type := jsstring -> nat -> S -> list jsstring.

(** [getParsedValue] only uses the [match] method of the part it is given. *)
Definition getParsedValue (partMatch : jsstring -> nat -> option SyntaxMatch)
    (value : jsstring) (index : nat) : Outcome jsstring :=
  match partMatch value index with
  | Some m =>
      if isFull m then Returns (slice value index (index + consumed m))
      else Throws (Error "Can't parse expected-parseable value"%string)
  | None => Throws (Error "Can't parse expected-parseable value"%string)
  end.

(** *** [FixedStringSyntax] *)

(** The comparison loop: [expected] is the lower-cased matcher from offset
    [i - index] on and [rest] the input from [i] on. [None] is the early
    [return undefined]; otherwise the exit value of [i]. *)
Fixpoint FixedStringSyntax_match_loop (expected rest : jsstring) (i : nat)
    : option nat :=
  match expected, rest with
  | e :: expected', c :: rest' =>
      if Ascii.eqb e (toLowerCaseChar c)
      then FixedStringSyntax_match_loop expected' rest' (S i)
      else None
  | _, _ => Some i
  end.

Definition FixedStringSyntax_match (matcher : jsstring)
    (value : jsstring) (index : nat) : option SyntaxMatch :=
  let expected := toLowerCase matcher in
  match FixedStringSyntax_match_loop expected (skipn index value) index with
  | None => None
  | Some i =>
      let consumedChars := i - index in
      Some {| type := if consumedChars =? length matcher then full else partial;
              consumed := consumedChars |}
  end.

Definition FixedStringSyntax_getSuggestions (matcher : jsstring)
    (value : jsstring) (index : nat) : list Suggestion :=
  [ {| showAs := matcher; value := matcher; template := false |} ].

Definition FixedStringSyntax_parse (matcher : jsstring)
    (value : jsstring) (index : nat) : Outcome jsstring :=
  _ <- getParsedValue (FixedStringSyntax_match matcher) value index ;;
  Returns matcher.

Definition FixedStringSyntax {S : Type} (matcher : jsstring) : SyntaxPart S := {|
  match_ := FixedStringSyntax_match matcher;
  getSuggestions := fun value index _ =>
    FixedStringSyntax_getSuggestions matcher value index;
  parse := fun value index =>
    s <- FixedStringSyntax_parse matcher value index ;; Returns (VString s)
|}.

(** *** [StringSyntax] *)

Record StringSyntaxOptions (S : Type) : Type := {
  allowEmpty : bool;
  allowedChars : option (list CharRange);
  suggestionGenerator : option (Generator S)
}.

Definition defaultOptions {S : Type} : StringSyntaxOptions S :=
  {| allowEmpty := false; allowedChars := None; suggestionGenerator := None |}.

Definition allowedCharRanges {S : Type} (options : StringSyntaxOptions S)
    : list CharRange :=
  match allowedChars options with
  | Some ranges => ranges
  | None => [(0, 255)]
  end.

Definition StringSyntax_match {S : Type} (options : StringSyntaxOptions S)
    (value : jsstring) (index : nat) : option SyntaxMatch :=
  match getStringAt value index (allowedCharRanges options) with
  | None => None
  | Some matchingString =>
      let consumedChars := length matchingString in
      Some {| type := if (0 <? consumedChars) || allowEmpty options
                      then full else partial;
              consumed := consumedChars |}
  end.

(** [!matchingString]: true for [undefined] and for the empty string. *)
Definition falsyString (s : option jsstring) : bool :=
  match s with
  | Some (_ :: _) => false
  | _ => true
  end.

Definition fitsExisting (matching : option jsstring) (suggestion : jsstring) : bool :=
  match matching with
  | Some (c :: m) => startsWith suggestion (c :: m)
  | _ => true
  end.

Definition plain (s : jsstring) : Suggestion :=
  {| showAs := s; value := s; template := false |}.

Definition StringSyntax_getSuggestions {S : Type} (templateText : jsstring)
    (options : StringSyntaxOptions S)
    (value : jsstring) (index : nat) (context : option S) : list Suggestion :=
  let matchingString := getStringAt value index (allowedCharRanges options) in
  let suggestions :=
    match context, suggestionGenerator options with
    | Some ctx, Some generator =>
        map plain
          (filter (fun suggestion =>
                     fitsExisting matchingString suggestion &&
                     negb (existsb
                             (fun c => negb (allowedBy (allowedCharRanges options) c))
                             suggestion))
                  (generator value index ctx))
    | _, _ => []
    end in
  match matchingString with
  | Some (c :: m) => plain (c :: m) :: suggestions
  | _ =>
      {| showAs := "{"%string ++ templateText ++ "}"%string; value := []; template := true |}
      :: suggestions
  end.

Definition StringSyntax_parse {S : Type} (options : StringSyntaxOptions S)
    (value : jsstring) (index : nat) : Outcome jsstring :=
  getParsedValue (StringSyntax_match options) value index.

Definition StringSyntax {S : Type} (templateText : jsstring)
    (options : StringSyntaxOptions S) : SyntaxPart S := {|
  match_ := StringSyntax_match options;
  getSuggestions := StringSyntax_getSuggestions templateText options;
  parse := fun value index =>
    s <- StringSyntax_parse options value index ;; Returns (VString s)
|}.

(** *** [NumberSyntax] *)

(** The wrapped [StringSyntax] of a [NumberSyntax]; it takes no context. *)
Definition NumberSyntax_stringSyntaxOptions : StringSyntaxOptions Empty_set :=
  {| allowEmpty := false;
     allowedChars := Some [NUMBER_CHARS];
     suggestionGenerator := None |}.

Definition NumberSyntax {S : Type} (name : jsstring) : SyntaxPart S := {|
  match_ := StringSyntax_match NumberSyntax_stringSyntaxOptions;
  getSuggestions := fun value index _ =>
    StringSyntax_getSuggestions name NumberSyntax_stringSyntaxOptions
      value index None;
  parse := fun value index =>
    valueAsString <- StringSyntax_parse NumberSyntax_stringSyntaxOptions value index ;;
    Returns (VNumber (parseInt10 valueAsString))
|}.

(** *** [FixedLengthNumberSyntax] *)

Definition FixedLengthNumberSyntax_match (requiredLength : nat)
    (value : jsstring) (index : nat) : option SyntaxMatch :=
  match getNumberAt value index with
  | None => None
  | Some matchingNumber =>
      let consumedChars := length matchingNumber in
      if consumedChars =? requiredLength
      then Some {| type := full; consumed := consumedChars |}
      else if consumedChars <? requiredLength
      then Some {| type := partial; consumed := consumedChars |}
      else None
  end.

(** The generator's candidates that survive the [filter] of
    [FixedLengthNumberSyntax.getSuggestions]. *)
Definition FixedLengthNumberSyntax_candidates {S : Type} (requiredLength : nat)
    (generator : option (Generator S))
    (value : jsstring) (index : nat) (context : option S) : list jsstring :=
  match context, generator with
  | Some ctx, Some g =>
      filter (fun suggestion =>
                fitsExisting (getNumberAt value index) suggestion &&
                (length suggestion =? requiredLength) &&
                negb (existsb
                        (fun c => negb (matchesRange (charCode c) NUMBER_CHARS))
                        suggestion))
             (g value index ctx)
  | _, _ => []
  end.

Definition FixedLengthNumberSyntax_getSuggestions {S : Type} (requiredLength : nat)
    (generator : option (Generator S))
    (value : jsstring) (index : nat) (context : option S) : list Suggestion :=
  let matchingNumber := getNumberAt value index in
  let suggestions :=
    map plain
      (FixedLengthNumberSyntax_candidates requiredLength generator
         value index context) in
  match matchingNumber with
  | Some (c :: m) =>
      match suggestions with
      | _ :: _ => suggestions
      | [] =>
          let extendedNumber :=
            (c :: m) ++ repeatChar "0" (requiredLength - length (c :: m)) in
          [ plain extendedNumber ]
      end
  | _ =>
      {| showAs := "{"%string ++ numberToString requiredLength
                     ++ "-digit number}"%string;
         value := [];
         template := true |}
      :: suggestions
  end.

Definition FixedLengthNumberSyntax {S : Type} (requiredLength : nat)
    (generator : option (Generator S)) : SyntaxPart S := {|
  match_ := FixedLengthNumberSyntax_match requiredLength;
  getSuggestions := FixedLengthNumberSyntax_getSuggestions requiredLength generator;
  parse := fun value index =>
    valueAsString <-
      getParsedValue (FixedLengthNumberSyntax_match requiredLength) value index ;;
    Returns (VNumber (parseInt10 valueAsString))
|}.

(** *** [StringOptionsSyntax] *)

(** [.filter(m => !!m)] on an array of possibly-undefined objects. *)
Fixpoint filterDefined {A : Type} (l : list (option A)) : list A :=
  match l with
  | [] => []
  | Some a :: l' => a :: filterDefined l'
  | None :: l' => filterDefined l'
  end.

(** lodash [_.maxBy] with a numeric iteratee: [undefined] on the empty
    array, otherwise the first element at which the iteratee is greatest
    (the running result is replaced only by a strictly greater one). *)
Fixpoint maxBy_from {A : Type} (iteratee : A -> nat) (result : A) (l : list A) : A :=
  match l with
  | [] => result
  | x :: l' =>
      maxBy_from iteratee (if iteratee result <? iteratee x then x else result) l'
  end.

Definition maxBy {A : Type} (l : list A) (iteratee : A -> nat) : option A :=
  match l with
  | [] => None
  | x :: l' => Some (maxBy_from iteratee x l')
  end.

Definition StringOptionsSyntax_match (options : list jsstring)
    (value : jsstring) (index : nat) : option SyntaxMatch :=
  let matches :=
    filterDefined (map (fun m => FixedStringSyntax_match m value index) options) in
  let '(fullMatches, partialMatches) := partition isFull matches in
  let bestMatches :=
    match fullMatches with _ :: _ => fullMatches | [] => partialMatches end in
  maxBy bestMatches consumed.

Definition StringOptionsSyntax_getSuggestions (options : list jsstring)
    (value : jsstring) (index : nat) : list Suggestion :=
  let reachesEnd (entry : jsstring * option SyntaxMatch) :=
    match snd entry with
    | Some m => consumed m + index =? length value
    | None => false
    end in
  let entryFull (entry : jsstring * option SyntaxMatch) :=
    match snd entry with
    | Some m => isFull m
    | None => false
    end in
  let matchers :=
    filter reachesEnd
      (map (fun m => (m, FixedStringSyntax_match m value index)) options) in
  let matchers :=
    if existsb entryFull matchers then filter entryFull matchers else matchers in
  flat_map (fun entry => FixedStringSyntax_getSuggestions (fst entry) value index)
    matchers.

Definition StringOptionsSyntax {S : Type} (options : list jsstring)
    : SyntaxPart S := {|
  match_ := StringOptionsSyntax_match options;
  getSuggestions := fun value index _ =>
    StringOptionsSyntax_getSuggestions options value index;
  parse := fun value index =>
    s <- getParsedValue (StringOptionsSyntax_match options) value index ;;
    Returns (VString s)
|}.

(** ** Sequential composition *)

(** Of a filter class, composition reads the [filterSyntax] array only. *)
Record FilterClass (S : Type) : Type := {
  filterSyntax : list (SyntaxPart S)
}.

(** The loop of [parseFilter], from the state [(index, parts)]. A part
    whose [match] is [undefined] makes [.consumed] a [TypeError]. *)
Fixpoint parseFilter_loop {S : Type} (syntax : list (SyntaxPart S))
    (value : jsstring) (index : nat) (parts : list PartValue)
    : Outcome (nat * list PartValue) :=
  match syntax with
  | [] => Returns (index, parts)
  | part :: syntax' =>
      parsed <- parse part value index ;;
      match match_ part value index with
      | Some m =>
          parseFilter_loop syntax' value (index + consumed m) (parts ++ [parsed])
      | None => Throws TypeError
      end
  end.

Definition parseFilter {S : Type} (filterClass : FilterClass S)
    (value : jsstring) : Outcome (list PartValue) :=
  final <- parseFilter_loop (filterSyntax filterClass) value 0 [] ;;
  Returns (snd final).

(** The loop of [tryParseFilter]; the [break] returns the current state. *)
Fixpoint tryParseFilter_loop {S : Type} (syntax : list (SyntaxPart S))
    (value : jsstring) (index : nat) (parts : list PartValue)
    : Outcome (nat * list PartValue) :=
  match syntax with
  | [] => Returns (index, parts)
  | part :: syntax' =>
      match match_ part value index with
      | Some m =>
          if isFull m
          then
            parsed <- parse part value index ;;
            tryParseFilter_loop syntax' value (index + consumed m) (parts ++ [parsed])
          else Returns (index, parts)
      | None => Returns (index, parts)
      end
  end.

Definition tryParseFilter {S : Type} (filterClass : FilterClass S)
    (value : jsstring) : Outcome (list PartValue) :=
  final <- tryParseFilter_loop (filterSyntax filterClass) value 0 [] ;;
  Returns (snd final).

(** ** The filter definitions of the search-filter module

    The suggestion generators read the collected events, which are outside
    this development; they are taken as arguments. *)

Section Filters.
Variable Events : Type.
Variables statusCodes methods hostnames paths queries : Generator Events.

Definition numberOperations : list jsstring :=
  [ "="%string : jsstring; "!="%string : jsstring; ">="%string : jsstring;
    ">"%string : jsstring; "<="%string : jsstring; "<"%string : jsstring ].

Definition stringOperations : list jsstring :=
  [ "="%string : jsstring; "!="%string : jsstring; "*="%string : jsstring;
    "^="%string : jsstring; "$="%string : jsstring ].

Definition StatusFilter : FilterClass Events := {| filterSyntax :=
  [ FixedStringSyntax "status"%string;
    StringOptionsSyntax numberOperations;
    FixedLengthNumberSyntax 3 (Some statusCodes) ] |}.

Definition CompletedFilter : FilterClass Events := {| filterSyntax :=
  [ FixedStringSyntax "completed"%string ] |}.

Definition MethodFilter : FilterClass Events := {| filterSyntax :=
  [ FixedStringSyntax "method"%string;
    FixedStringSyntax "="%string;
    StringSyntax "method"%string
      {| allowEmpty := false;
         allowedChars := Some
           [ charRange "a"%string (Some ("z"%string : jsstring));
             charRange "A"%string (Some ("Z"%string : jsstring)) ];
         suggestionGenerator := Some methods |} ] |}.

Definition ProtocolFilter : FilterClass Events := {| filterSyntax :=
  [ FixedStringSyntax "protocol"%string;
    FixedStringSyntax "="%string;
    StringOptionsSyntax
      [ "http"%string : jsstring; "https"%string : jsstring ] ] |}.

Definition PortFilter : FilterClass Events := {| filterSyntax :=
  [ FixedStringSyntax "port"%string;
    StringOptionsSyntax numberOperations;
    NumberSyntax "port"%string ] |}.

Definition QueryFilter : FilterClass Events := {| filterSyntax :=
  [ FixedStringSyntax "query"%string;
    StringOptionsSyntax stringOperations;
    StringSyntax "query"%string
      {| allowEmpty := true;
         allowedChars := None;
         suggestionGenerator := Some queries |} ] |}.
End Filters.

(** ** Operation tables

    The object literals [numberOperations], [stringOperations] and
    [operationDescriptions] as lists of their properties in source order,
    read with [property]; the tables carry the suffix [Table] because the
    operator lists of the syntax parts above already bear the plain names. *)

Definition jsstring_eqb (a b : jsstring) : bool :=
  if list_eq_dec ascii_dec a b then true else false.

(** [object[key]]: [undefined] when the object has no such property. *)
Fixpoint property {A : Type} (object : list (jsstring * A)) (key : jsstring)
    : option A :=
  match object with
  | [] => None
  | (name, a) :: object' =>
      if jsstring_eqb name key then Some a else property object' key
  end.

(** [===] and the comparisons on numbers; every comparison with [NaN] is
    false. *)
Definition numberEquals (a b : JsNumber) : bool :=
  match a, b with
  | Num x, Num y => N.eqb x y
  | _, _ => false
  end.

Definition numberLess (a b : JsNumber) : bool :=
  match a, b with
  | Num x, Num y => N.ltb x y
  | _, _ => false
  end.

Definition numberLessOrEqual (a b : JsNumber) : bool :=
  match a, b with
  | Num x, Num y => N.leb x y
  | _, _ => false
  end.

Definition numberOperationsTable
    : list (jsstring * (JsNumber -> JsNumber -> bool)) :=
  [ ("="%string : jsstring, fun value expected => numberEquals value expected);
    ("!="%string : jsstring, fun value expected => negb (numberEquals value expected));
    (">"%string : jsstring, fun value expected => numberLess expected value);
    (">="%string : jsstring, fun value expected => numberLessOrEqual expected value);
    ("<"%string : jsstring, fun value expected => numberLess value expected);
    ("<="%string : jsstring, fun value expected => numberLessOrEqual value expected) ].

(** [String.prototype.includes] and [endsWith]. *)
Fixpoint includes (s sub : jsstring) : bool :=
  startsWith s sub ||
  match s with
  | [] => false
  | _ :: s' => includes s' sub
  end.

Definition endsWith (s suffix : jsstring) : bool :=
  startsWith (rev s) (rev suffix).

Definition stringOperationsTable
    : list (jsstring * (jsstring -> jsstring -> bool)) :=
  [ ("="%string : jsstring, fun value expected => jsstring_eqb value expected);
    ("!="%string : jsstring, fun value expected => negb (jsstring_eqb value expected));
    ("*="%string : jsstring, fun value expected => includes value expected);
    ("^="%string : jsstring, fun value expected => startsWith value expected);
    ("$="%string : jsstring, fun value expected => endsWith value expected) ].

Definition operationDescriptions : list (jsstring * jsstring) :=
  [ ("="%string : jsstring, "equal to"%string : jsstring);
    ("!="%string : jsstring, "not equal to"%string : jsstring);
    (">"%string : jsstring, "greater than"%string : jsstring);
    (">="%string : jsstring, "greater than or equal to"%string : jsstring);
    ("<"%string : jsstring, "less than"%string : jsstring);
    ("<="%string : jsstring, "less than or equal to"%string : jsstring);
    ("*="%string : jsstring, "containing"%string : jsstring);
    ("^="%string : jsstring, "that starts with"%string : jsstring);
    ("$="%string : jsstring, "that ends with"%string : jsstring) ].

(** ** Filter constructors

    What the constructors compute from the filter text: the fields they
    assign, as far as these come from parsing. A destructured array element
    that is missing is [undefined], [None]. *)

Record StatusFilterFields : Type := {
  StatusFilter_filterString : jsstring;
  StatusFilter_op : option PartValue;
  StatusFilter_status : option PartValue;
  StatusFilter_predicate : option (JsNumber -> JsNumber -> bool)
}.

Definition StatusFilter_constructor {Events : Type}
    (statusCodes : Generator Events) (filter : jsstring)
    : Outcome StatusFilterFields :=
  parts <- parseFilter (StatusFilter statusCodes) filter ;;
  let op := nth_error parts 1 in
  let status := nth_error parts 2 in
  Returns {| StatusFilter_filterString := filter;
             StatusFilter_op := op;
             StatusFilter_status := status;
             StatusFilter_predicate :=
               match op with
               | Some (VString key) => property numberOperationsTable key
               | _ => None
               end |}.

Definition HttpVersionFilter (Events : Type) : FilterClass Events := {|
  filterSyntax :=
    [ FixedStringSyntax "httpVersion"%string;
      FixedStringSyntax "="%string;
      StringOptionsSyntax [ "1"%string : jsstring; "2"%string : jsstring ] ] |}.

Record HttpVersionFilterFields : Type := {
  HttpVersionFilter_filterString : jsstring;
  HttpVersionFilter_expectedVersion : JsNumber
}.

Definition HttpVersionFilter_constructor (Events : Type) (filter : jsstring)
    : Outcome HttpVersionFilterFields :=
  parts <- parseFilter (HttpVersionFilter Events) filter ;;
  Returns {| HttpVersionFilter_filterString := filter;
             HttpVersionFilter_expectedVersion :=
               match nth_error parts 2 with
               | Some (VString versionString) => parseInt10 versionString
               | Some (VNumber n) => n
               | None => NaN
               end |}.

Record ProtocolFilterFields : Type := {
  ProtocolFilter_filterString : jsstring;
  ProtocolFilter_expectedProtocol : jsstring
}.

(** [protocol.toLowerCase()] is a [TypeError] when [protocol] is no string. *)
Definition ProtocolFilter_constructor (Events : Type) (filter : jsstring)
    : Outcome ProtocolFilterFields :=
  parts <- parseFilter (ProtocolFilter Events) filter ;;
  match nth_error parts 2 with
  | Some (VString protocol) =>
      Returns {| ProtocolFilter_filterString := filter;
                 ProtocolFilter_expectedProtocol := toLowerCase protocol |}
  | _ => Throws TypeError
  end.

(** * Vocabulary of the properties *)

(** ** The run of allowed characters at a position *)

Fixpoint takeWhile {A : Type} (p : A -> bool) (l : list A) : list A :=
  match l with
  | x :: l' => if p x then x :: takeWhile p l' else []
  | [] => []
  end.

(** The maximal run of allowed characters of [value] that starts at [index]. *)
Definition runAt (allowed : list CharRange) (value : jsstring) (index : nat)
    : jsstring :=
  takeWhile (allowedBy allowed) (skipn index value).

(** The run of decimal digits at [index]. *)
Definition digitsAt (value : jsstring) (index : nat) : jsstring :=
  runAt [NUMBER_CHARS] value index.

(** ** Agreement with a keyword *)

(** The keyword and the text agree, ignoring case, on their common length. *)
Fixpoint agree (keyword rest : jsstring) : bool :=
  match keyword, rest with
  | e :: keyword', c :: rest' =>
      Ascii.eqb (toLowerCaseChar e) (toLowerCaseChar c) && agree keyword' rest'
  | _, _ => true
  end.

(** ** Usable candidates of a digit generator *)

(** A generator candidate is usable for the typed digits when it starts
    with them, has the required length and consists of digits. *)
Definition validCandidate (requiredLength : nat) (typed candidate : jsstring)
    : Prop :=
  startsWith candidate typed = true /\
  length candidate = requiredLength /\
  Forall (fun c => isDigit c = true) candidate.

(** ** The results among which [StringOptionsSyntax.match] chooses *)

(** What each configured option's own [FixedStringSyntax] answers. *)
Definition optionResults (options : list jsstring) (value : jsstring) (index : nat)
    : list (option SyntaxMatch) :=
  map (fun option => match_ (FixedStringSyntax (S := unit) option) value index)
    options.

(** The results that survive: the absent ones are discarded, then the full
    ones are kept if there is any, and the partial ones otherwise. *)
Definition survivingResults (options : list jsstring) (value : jsstring)
    (index : nat) : list SyntaxMatch :=
  let present := filterDefined (optionResults options value index) in
  if existsb isFull present
  then filter isFull present
  else filter (fun m => negb (isFull m)) present.

(** ** Parts whose [parse] agrees with their [match]

    The interface asks of [parse] that it return on a full match and throw
    otherwise. The composition results hold for every list of parts that
    keep to this, and each of the five classes does. *)

Class LawfulPart {S : Type} (part : SyntaxPart S) : Prop := {
  parse_on_full : forall value index c,
    match_ part value index = Some {| type := full; consumed := c |} ->
    exists parsed, parse part value index = Returns parsed;
  parse_only_on_full : forall value index parsed,
    parse part value index = Returns parsed ->
    exists c, match_ part value index = Some {| type := full; consumed := c |}
}.

(** Every part of [syntax], taken in order from [index], matches in full;
    [final] is the position after the last of them. *)
Inductive MatchesInOrder {S : Type} (value : jsstring)
    : list (SyntaxPart S) -> nat -> nat -> Prop :=
| MatchesInOrder_nil (index : nat) :
    MatchesInOrder value [] index index
| MatchesInOrder_cons (part : SyntaxPart S) (syntax : list (SyntaxPart S))
    (index c final : nat) :
    match_ part value index = Some {| type := full; consumed := c |} ->
    MatchesInOrder value syntax (index + c) final ->
    MatchesInOrder value (part :: syntax) index final.

Ltac lawful_syntax :=
  repeat (apply Forall_cons; [typeclasses eauto|]); apply Forall_nil.

(** ** Inserting a suggestion *)

(** The text that selecting a suggestion inserts. *)
Definition inserted (s : Suggestion) : jsstring := value s.

(** The input with everything from [index] on replaced by [text]: what the
    input becomes when the text of a suggestion for the part at [index] is
    inserted there. *)
Definition replaceFrom (value : jsstring) (index : nat) (text : jsstring)
    : jsstring :=
  firstn index value ++ text.

(** [text] is the beginning of [option], up to case. *)
Definition beginsUpToCase (text option : jsstring) : Prop :=
  toLowerCase text = firstn (length text) (toLowerCase option).

(** ** Options that are still live *)

(** The option's own match reaches the end of the input. *)
Definition reachesEndOfInput (value : jsstring) (index : nat) (option : jsstring)
    : bool :=
  match FixedStringSyntax_match option value index with
  | Some m => consumed m + index =? length value
  | None => false
  end.

(** The option's own match is full. *)
Definition matchesInFull (value : jsstring) (index : nat) (option : jsstring)
    : bool :=
  match FixedStringSyntax_match option value index with
  | Some m => isFull m
  | None => false
  end.

(** ** Characters that come in two cases *)

(** The character is a capital, or the lower-case form of one. *)
Definition isCased (c : ascii) : bool :=
  isUpperCode (charCode c) || isUpperCode (charCode c - 32).

(** ** Parts that stay inside the input *)

(** A match found at a position inside the input ends inside the input. *)
Class InBoundsPart {S : Type} (part : SyntaxPart S) : Prop :=
  consumed_in_bounds : forall value index m,
    index <= length value ->
    match_ part value index = Some m ->
    index + consumed m <= length value.

Ltac in_bounds_syntax :=
  repeat (apply Forall_cons; [typeclasses eauto|]); apply Forall_nil.

(** * Properties *)

(** ** The run of allowed characters at a position *)

Lemma takeWhile_prefix {A : Type} (p : A -> bool) (l : list A) :
  firstn (length (takeWhile p l)) l = takeWhile p l.
Proof.
  induction l as [|x l IH]; simpl; [reflexivity|].
  destruct (p x); simpl; [now rewrite IH | reflexivity].
Qed.

Lemma takeWhile_all {A : Type} (p : A -> bool) (l : list A) :
  Forall (fun x => p x = true) (takeWhile p l).
Proof.
  induction l as [|x l IH]; simpl; [constructor|].
  destruct (p x) eqn:E; constructor; assumption.
Qed.

Lemma takeWhile_length_le {A : Type} (p : A -> bool) (l : list A) :
  length (takeWhile p l) <= length l.
Proof.
  induction l as [|x l IH]; simpl; [lia|].
  destruct (p x); simpl; lia.
Qed.

(** Where the run stops short of the end, the next character is refused. *)
Lemma takeWhile_stops {A : Type} (p : A -> bool) (l : list A) (x : A) :
  nth_error l (length (takeWhile p l)) = Some x -> p x = false.
Proof.
  induction l as [|y l IH]; simpl; [discriminate|].
  destruct (p y) eqn:E; simpl; [exact IH|].
  intros H; injection H as <-; exact E.
Qed.

Lemma getStringAt_loop_exit (allowed : list CharRange) (rest : jsstring) (i : nat) :
  getStringAt_loop allowed rest i = i + length (takeWhile (allowedBy allowed) rest).
Proof.
  revert i; induction rest as [|c rest IH]; intros i; simpl; [lia|].
  destruct (allowedBy allowed c); simpl; [rewrite IH; lia | lia].
Qed.

Lemma slice_from (value : jsstring) (index k : nat) :
  slice value index (index + k) = firstn k (skipn index value).
Proof. unfold slice. now replace (index + k - index) with k by lia. Qed.

Lemma substring_forward (value : jsstring) (index k : nat) :
  substring value index (index + k) = firstn k (skipn index value).
Proof.
  unfold substring.
  rewrite Nat.min_l, Nat.max_r by lia. apply slice_from.
Qed.

(** [getStringAt] returns the run when it is not empty, the empty string at
    the exact end of the input, and [undefined] otherwise. *)
Lemma getStringAt_run (value : jsstring) (index : nat) (allowed : list CharRange) :
  getStringAt value index allowed =
  match runAt allowed value index with
  | c :: run => Some (c :: run)
  | [] => if index =? length value then Some [] else None
  end.
Proof.
  unfold getStringAt, runAt.
  rewrite getStringAt_loop_exit.
  set (rest := skipn index value).
  rewrite substring_forward. fold rest.
  rewrite takeWhile_prefix.
  destruct (takeWhile (allowedBy allowed) rest) as [|c run] eqn:E; simpl.
  - rewrite Nat.add_0_r, Nat.eqb_refl. reflexivity.
  - replace (index + S (length run) =? index) with false
      by (symmetry; apply Nat.eqb_neq; lia).
    reflexivity.
Qed.

Lemma runAt_in_bounds (allowed : list CharRange) (value : jsstring) (index : nat) :
  length (runAt allowed value index) <= length value - index.
Proof.
  unfold runAt.
  etransitivity; [apply takeWhile_length_le|].
  rewrite length_skipn. lia.
Qed.

Lemma runAt_at_end (allowed : list CharRange) (value : jsstring) :
  runAt allowed value (length value) = [].
Proof.
  unfold runAt. now rewrite skipn_all.
Qed.

Lemma nth_error_skipn_add {A : Type} (l : list A) (i j : nat) :
  nth_error (skipn i l) j = nth_error l (i + j).
Proof.
  revert l; induction i as [|i IH]; intros l; simpl; [reflexivity|].
  destruct l as [|x l]; simpl; [now destruct j | apply IH].
Qed.

Lemma takeWhile_nth {A : Type} (p : A -> bool) (l : list A) (j : nat) :
  j < length (takeWhile p l) ->
  exists x, nth_error l j = Some x /\ p x = true.
Proof.
  revert j; induction l as [|y l IH]; intros j; simpl; [lia|].
  destruct (p y) eqn:E; simpl; [|lia].
  destruct j as [|j]; simpl; [now exists y|].
  intros H; apply IH; lia.
Qed.

Lemma takeWhile_nil_head {A : Type} (p : A -> bool) (l : list A) (x : A) :
  nth_error l 0 = Some x -> p x = false -> takeWhile p l = [].
Proof.
  destruct l as [|y l]; simpl; [discriminate|].
  intros H E; injection H as ->. now rewrite E.
Qed.

(** ** [StringSyntax.match] *)

Lemma StringSyntax_match_run {S : Type} (options : StringSyntaxOptions S)
    (value : jsstring) (index : nat) :
  StringSyntax_match options value index =
  match runAt (allowedCharRanges options) value index with
  | c :: run => Some {| type := full; consumed := length (c :: run) |}
  | [] =>
      if index =? length value
      then Some {| type := if allowEmpty options then full else partial;
                   consumed := 0 |}
      else None
  end.
Proof.
  unfold StringSyntax_match. rewrite getStringAt_run.
  destruct (runAt (allowedCharRanges options) value index) as [|c run]; simpl.
  - destruct (index =? length value); reflexivity.
  - reflexivity.
Qed.

(** C6. [StringSyntax.match] consumes allowed characters only; at the end
    of the string, where nothing can be consumed, the match is full when
    [allowEmpty] is set and partial otherwise; and when the character at
    [index] is not allowed (so nothing is consumed although input remains)
    the result is [undefined]. *)
Theorem StringSyntax_match_allowed_chars {S : Type} (templateText : jsstring)
    (options : StringSyntaxOptions S) (value : jsstring) (index : nat) :
  (forall m, match_ (StringSyntax templateText options) value index = Some m ->
     index + consumed m <= length value /\
     forall j, j < consumed m ->
       exists c, nth_error value (index + j) = Some c /\
                 allowedBy (allowedCharRanges options) c = true) /\
  (index = length value ->
     match_ (StringSyntax templateText options) value index =
     Some {| type := if allowEmpty options then full else partial;
             consumed := 0 |}) /\
  (forall c, nth_error value index = Some c ->
     allowedBy (allowedCharRanges options) c = false ->
     match_ (StringSyntax templateText options) value index = None).
Proof.
  simpl. rewrite StringSyntax_match_run.
  pose proof (runAt_in_bounds (allowedCharRanges options) value index) as Hlen.
  split; [|split].
  - intros m Hm.
    assert (Hc : consumed m = length (runAt (allowedCharRanges options) value index)).
    { destruct (runAt (allowedCharRanges options) value index) as [|c run].
      - destruct (index =? length value); [|discriminate].
        injection Hm as <-. reflexivity.
      - injection Hm as <-. reflexivity. }
    split.
    + destruct (runAt (allowedCharRanges options) value index) as [|c run] eqn:E.
      * destruct (index =? length value) eqn:Ei; [|discriminate].
        apply Nat.eqb_eq in Ei. lia.
      * simpl in *. lia.
    + intros j Hj. rewrite Hc in Hj. unfold runAt in Hj.
      apply takeWhile_nth in Hj. destruct Hj as [x [Hx Hp]].
      exists x. now rewrite <- nth_error_skipn_add.
  - intros ->. rewrite runAt_at_end, Nat.eqb_refl. reflexivity.
  - intros c Hc Hno.
    assert (E : runAt (allowedCharRanges options) value index = []).
    { unfold runAt. apply takeWhile_nil_head with (x := c); [|assumption].
      rewrite nth_error_skipn_add, Nat.add_0_r. assumption. }
    rewrite E.
    assert (index < length value) by (apply nth_error_Some; congruence).
    replace (index =? length value) with false
      by (symmetry; apply Nat.eqb_neq; lia).
    reflexivity.
Qed.

(** The method filter's operand on [method=GE]: two letters consumed, both
    allowed; at the end of [method=] an empty partial match; on [method=1]
    a hard rejection. *)
Lemma StringSyntax_match_allowed_chars_witness :
  let options := {| allowEmpty := false;
                    allowedChars := Some [ (97, 122); (65, 90) ];
                    suggestionGenerator := @None (Generator unit) |} in
  (match_ (StringSyntax "method"%string options) "method=GE"%string 7 =
     Some {| type := full; consumed := 2 |} /\
   7 + 2 <= 9 /\
   exists c, nth_error ("method=GE"%string : jsstring) (7 + 1) = Some c /\
             allowedBy (allowedCharRanges options) c = true) /\
  match_ (StringSyntax "method"%string options) "method="%string 7 =
     Some {| type := partial; consumed := 0 |} /\
  match_ (StringSyntax "method"%string options) "method=1"%string 7 = None.
Proof.
  intros options.
  split; [|split].
  - assert (Hm : match_ (StringSyntax "method"%string options) "method=GE"%string 7 =
                 Some {| type := full; consumed := 2 |}) by reflexivity.
    destruct (StringSyntax_match_allowed_chars "method"%string options
                "method=GE"%string 7) as [Hcons _].
    destruct (Hcons _ Hm) as [Hle Hall].
    split; [exact Hm|]. split; [exact Hle|].
    apply (Hall 1). simpl. lia.
  - destruct (StringSyntax_match_allowed_chars "method"%string options
                "method="%string 7) as [_ [Hend _]].
    apply Hend. reflexivity.
  - destruct (StringSyntax_match_allowed_chars "method"%string options
                "method=1"%string 7) as [_ [_ Hrej]].
    apply (Hrej "1"%char); reflexivity.
Defined.

(** ** [FixedLengthNumberSyntax] *)

Lemma getNumberAt_digits (value : jsstring) (index : nat) :
  getNumberAt value index =
  match digitsAt value index with
  | c :: run => Some (c :: run)
  | [] => if index =? length value then Some [] else None
  end.
Proof. apply getStringAt_run. Qed.

(** The result of [match] in terms of the digit run at [index]. *)
Lemma FixedLengthNumberSyntax_match_digits (requiredLength : nat)
    (value : jsstring) (index : nat) :
  FixedLengthNumberSyntax_match requiredLength value index =
  let k := length (digitsAt value index) in
  if (k =? 0) && negb (index =? length value) then None
  else if k =? requiredLength then Some {| type := full; consumed := k |}
  else if k <? requiredLength then Some {| type := partial; consumed := k |}
  else None.
Proof.
  unfold FixedLengthNumberSyntax_match. rewrite getNumberAt_digits.
  destruct (digitsAt value index) as [|c run]; simpl.
  - destruct (index =? length value); reflexivity.
  - reflexivity.
Qed.

(** A run of exactly [requiredLength >= 1] digits is a full match, and a
    full match always consumes [requiredLength] digits. *)
Lemma FixedLengthNumberSyntax_full (requiredLength : nat)
    (value : jsstring) (index : nat) :
  0 < requiredLength ->
  (length (digitsAt value index) = requiredLength <->
   exists c, FixedLengthNumberSyntax_match requiredLength value index =
             Some {| type := full; consumed := c |}).
Proof.
  intros Hpos. rewrite FixedLengthNumberSyntax_match_digits. cbv zeta.
  destruct (Nat.eqb_spec (length (digitsAt value index)) 0) as [E0|E0];
  destruct (Nat.eqb_spec (length (digitsAt value index)) requiredLength) as [EN|EN];
  simpl.
  - lia.
  - split; [lia|]. intros [c Hc].
    destruct (negb (index =? length value)); [discriminate|].
    destruct (length (digitsAt value index) <? requiredLength); discriminate.
  - split; [eauto | intros _; exact EN].
  - split; [lia|]. intros [c Hc].
    destruct (length (digitsAt value index) <? requiredLength); discriminate.
Qed.

(** More than [requiredLength] digits are rejected. *)
Lemma FixedLengthNumberSyntax_too_long (requiredLength : nat)
    (value : jsstring) (index : nat) :
  requiredLength < length (digitsAt value index) ->
  FixedLengthNumberSyntax_match requiredLength value index = None.
Proof.
  intros H. rewrite FixedLengthNumberSyntax_match_digits. cbv zeta.
  replace (length (digitsAt value index) =? 0) with false
    by (symmetry; apply Nat.eqb_neq; lia).
  replace (length (digitsAt value index) =? requiredLength) with false
    by (symmetry; apply Nat.eqb_neq; lia).
  replace (length (digitsAt value index) <? requiredLength) with false
    by (symmetry; apply Nat.ltb_ge; lia).
  reflexivity.
Qed.

(** A shorter, non-empty run is a partial match whatever follows it. *)
Lemma FixedLengthNumberSyntax_short_run (requiredLength : nat)
    (value : jsstring) (index : nat) :
  0 < length (digitsAt value index) < requiredLength ->
  FixedLengthNumberSyntax_match requiredLength value index =
  Some {| type := partial; consumed := length (digitsAt value index) |}.
Proof.
  intros H. rewrite FixedLengthNumberSyntax_match_digits. cbv zeta.
  replace (length (digitsAt value index) =? 0) with false
    by (symmetry; apply Nat.eqb_neq; lia).
  replace (length (digitsAt value index) =? requiredLength) with false
    by (symmetry; apply Nat.eqb_neq; lia).
  replace (length (digitsAt value index) <? requiredLength) with true
    by (symmetry; apply Nat.ltb_lt; lia).
  reflexivity.
Qed.

(** C2. On ["40x"] a three-digit part finds the run ["40"], which stops at
    the letter and not at the end of the input, and still answers with a
    partial match of two characters. *)
Theorem FixedLengthNumberSyntax_partial_before_end :
  digitsAt "40x"%string 0 = ("40"%string : jsstring) /\
  0 + 2 < length ("40x"%string : jsstring) /\
  match_ (FixedLengthNumberSyntax (S := unit) 3 None) "40x"%string 0 =
    Some {| type := partial; consumed := 2 |}.
Proof. repeat split; simpl; lia. Qed.

Lemma filter_none {A : Type} (f : A -> bool) (l : list A) :
  (forall x, In x l -> f x = false) -> filter f l = [].
Proof.
  induction l as [|x l IH]; simpl; intros H; [reflexivity|].
  rewrite (H x) by now left. apply IH. intros y Hy. apply H. now right.
Qed.

Lemma only_digits_Forall (s : jsstring) :
  negb (existsb (fun c => negb (matchesRange (charCode c) NUMBER_CHARS)) s) = true ->
  Forall (fun c => isDigit c = true) s.
Proof.
  induction s as [|c s IH]; simpl; intros H; [constructor|].
  apply negb_true_iff, orb_false_iff in H. destruct H as [Hc Hs].
  constructor.
  - apply negb_false_iff in Hc. exact Hc.
  - apply IH. now rewrite Hs.
Qed.

Lemma candidates_none {S : Type} (requiredLength : nat)
    (generator : option (Generator S))
    (value : jsstring) (index : nat) (context : option S) (c : ascii) (run : jsstring) :
  digitsAt value index = c :: run ->
  (forall ctx g s, context = Some ctx -> generator = Some g ->
     In s (g value index ctx) -> ~ validCandidate requiredLength (c :: run) s) ->
  FixedLengthNumberSyntax_candidates requiredLength generator value index context = [].
Proof.
  intros Hrun Hnone. unfold FixedLengthNumberSyntax_candidates.
  destruct context as [ctx|]; [|reflexivity].
  destruct generator as [g|]; [|reflexivity].
  apply filter_none. intros s Hs.
  destruct (_ && _) eqn:E; [|reflexivity].
  exfalso. apply (Hnone ctx g s eq_refl eq_refl Hs).
  apply andb_true_iff in E. destruct E as [E Hdigits].
  apply andb_true_iff in E. destruct E as [Hfit Hlen].
  rewrite getNumberAt_digits, Hrun in Hfit. simpl in Hfit.
  repeat split.
  - exact Hfit.
  - now apply Nat.eqb_eq.
  - now apply only_digits_Forall.
Qed.

(** C9. When between one and [requiredLength - 1] digits are typed and the
    generator offers no usable candidate (in particular when there is no
    context or no generator), [getSuggestions] returns the single
    suggestion made of the typed digits followed by zeros up to the
    required length. *)
Theorem FixedLengthNumberSyntax_pads_with_zeros {S : Type} (requiredLength : nat)
    (generator : option (Generator S))
    (value : jsstring) (index : nat) (context : option S) :
  0 < length (digitsAt value index) ->
  length (digitsAt value index) < requiredLength ->
  (forall ctx g s, context = Some ctx -> generator = Some g ->
     In s (g value index ctx) ->
     ~ validCandidate requiredLength (digitsAt value index) s) ->
  let padded :=
    digitsAt value index ++
    repeat "0"%char (requiredLength - length (digitsAt value index)) in
  getSuggestions (FixedLengthNumberSyntax requiredLength generator)
    value index context =
    [ {| showAs := padded; value := padded; template := false |} ] /\
  length padded = requiredLength.
Proof.
  intros Hpos Hshort Hnone padded. split.
  - simpl. unfold FixedLengthNumberSyntax_getSuggestions.
    destruct (digitsAt value index) as [|c run] eqn:Hrun; [simpl in Hpos; lia|].
    rewrite (@candidates_none S requiredLength generator value index context
               c run Hrun Hnone).
    rewrite getNumberAt_digits, Hrun. reflexivity.
  - unfold padded. rewrite length_app, repeat_length. lia.
Qed.

(** The status filter on [status=40] with no event collected. *)
Lemma FixedLengthNumberSyntax_pads_with_zeros_witness :
  getSuggestions
    (FixedLengthNumberSyntax 3 (Some (fun _ _ (_ : unit) => @nil jsstring)))
    "status=40"%string 7 (Some tt) =
  [ {| showAs := "400"%string; value := "400"%string; template := false |} ].
Proof.
  refine (proj1 (@FixedLengthNumberSyntax_pads_with_zeros unit 3
                   (Some (fun _ _ _ => [])) "status=40"%string 7 (Some tt) _ _ _)).
  - simpl. lia.
  - simpl. lia.
  - intros ctx g s _ Hg Hs. injection Hg as <-. destruct Hs.
Defined.

(** ** [FixedStringSyntax] *)

Lemma FixedStringSyntax_match_loop_exit (keyword rest : jsstring) (i : nat) :
  FixedStringSyntax_match_loop (toLowerCase keyword) rest i =
  if agree keyword rest
  then Some (i + Nat.min (length keyword) (length rest))
  else None.
Proof.
  revert rest i; induction keyword as [|e keyword IH]; intros rest i; simpl.
  - f_equal; lia.
  - destruct rest as [|c rest]; simpl; [f_equal; lia|].
    destruct (Ascii.eqb (toLowerCaseChar e) (toLowerCaseChar c)); simpl.
    + rewrite IH. destruct (agree keyword rest); [f_equal; lia | reflexivity].
    + reflexivity.
Qed.

Lemma agree_false (keyword rest : jsstring) :
  agree keyword rest = false <->
  exists j e c, nth_error keyword j = Some e /\ nth_error rest j = Some c /\
                toLowerCaseChar c <> toLowerCaseChar e.
Proof.
  revert rest; induction keyword as [|e keyword IH]; intros rest; simpl.
  - split; [discriminate|]. intros [[|j] [e [c [He _]]]]; discriminate.
  - destruct rest as [|c rest].
    + split; [discriminate|]. intros [[|j] [e' [c [_ [Hc _]]]]]; discriminate.
    + destruct (Ascii.eqb_spec (toLowerCaseChar e) (toLowerCaseChar c)) as [E|E];
        simpl.
      * rewrite IH. split.
        -- intros [j [e' [c' H]]]. exists (S j), e', c'. exact H.
        -- intros [[|j] [e' [c' [He [Hc Hne]]]]]; simpl in *.
           ++ injection He as <-. injection Hc as <-. congruence.
           ++ exists j, e', c'. auto.
      * split; [|reflexivity]. intros _.
        exists 0, e, c. simpl. repeat split; congruence.
Qed.

Lemma agree_whole (keyword rest : jsstring) :
  agree keyword rest = true /\ length keyword <= length rest <->
  toLowerCase (firstn (length keyword) rest) = toLowerCase keyword.
Proof.
  revert rest; induction keyword as [|e keyword IH]; intros rest; simpl.
  - split; [reflexivity | split; [reflexivity | lia]].
  - destruct rest as [|c rest]; simpl.
    + split; [lia | discriminate].
    + destruct (Ascii.eqb_spec (toLowerCaseChar e) (toLowerCaseChar c)) as [E|E];
        simpl.
      * rewrite E. split.
        -- intros [Ha Hl]. f_equal. apply IH. split; [assumption | lia].
        -- intros H. injection H as H. apply IH in H. destruct H. split; [assumption | lia].
      * split; [intros [? _]; discriminate|].
        intros H. injection H as H _. congruence.
Qed.

(** The result of [match] in terms of [agree]. *)
Lemma FixedStringSyntax_match_agree (matcher value : jsstring) (index : nat) :
  FixedStringSyntax_match matcher value index =
  if agree matcher (skipn index value)
  then
    let consumedChars := Nat.min (length matcher) (length value - index) in
    Some {| type := if consumedChars =? length matcher then full else partial;
            consumed := consumedChars |}
  else None.
Proof.
  unfold FixedStringSyntax_match.
  rewrite FixedStringSyntax_match_loop_exit.
  destruct (agree matcher (skipn index value)); [|reflexivity].
  rewrite length_skipn. cbv zeta.
  replace (index + Nat.min (length matcher) (length value - index) - index)
    with (Nat.min (length matcher) (length value - index)) by lia.
  reflexivity.
Qed.

(** C7. [FixedStringSyntax.match] is full exactly when the text of the
    keyword's length at [index] equals the keyword up to case; it is
    [undefined] exactly when some character of the input, at a position
    inside the keyword, differs up to case from the keyword's character
    there; and any other result is a match that consumes every compared
    character, that is the shorter of the keyword and the remaining input. *)
Theorem FixedStringSyntax_match_case_insensitive {S : Type}
    (matcher value : jsstring) (index : nat) :
  ((exists c, match_ (FixedStringSyntax (S := S) matcher) value index =
              Some {| type := full; consumed := c |}) <->
   toLowerCase (slice value index (index + length matcher)) = toLowerCase matcher) /\
  (match_ (FixedStringSyntax (S := S) matcher) value index = None <->
   exists j e c, nth_error matcher j = Some e /\
                 nth_error value (index + j) = Some c /\
                 toLowerCaseChar c <> toLowerCaseChar e) /\
  (forall m, match_ (FixedStringSyntax (S := S) matcher) value index = Some m ->
     consumed m = Nat.min (length matcher) (length value - index) /\
     (type m = partial <-> length value - index < length matcher)).
Proof.
  simpl. rewrite FixedStringSyntax_match_agree, slice_from. cbv zeta.
  split; [|split].
  - rewrite <- agree_whole, length_skipn.
    destruct (agree matcher (skipn index value)).
    + destruct (Nat.eqb_spec (Nat.min (length matcher) (length value - index))
                  (length matcher)) as [E|E].
      * split; [intros _; split; [reflexivity | lia] | eauto].
      * split; [intros [c Hc]; discriminate | intros [_ H]; lia].
    + split; [intros [c Hc]; discriminate | intros [H _]; discriminate].
  - destruct (agree matcher (skipn index value)) eqn:Ha.
    + split; [discriminate|]. intros H.
      assert (Hf : agree matcher (skipn index value) = false).
      { apply agree_false. destruct H as [j [e [c [He [Hc Hne]]]]].
        exists j, e, c. now rewrite nth_error_skipn_add. }
      congruence.
    + split; [|reflexivity]. intros _.
      apply agree_false in Ha. destruct Ha as [j [e [c [He [Hc Hne]]]]].
      exists j, e, c. now rewrite <- nth_error_skipn_add.
  - intros m Hm.
    destruct (agree matcher (skipn index value)); [|discriminate].
    injection Hm as <-. simpl. split; [reflexivity|].
    destruct (Nat.eqb_spec (Nat.min (length matcher) (length value - index))
                (length matcher)) as [E|E].
    + split; [discriminate | lia].
    + split; [lia | reflexivity].
Qed.

(** [status] typed in capitals is a full match; [stXtus] is rejected at its
    third character; [stat] is a partial match of four characters. *)
Lemma FixedStringSyntax_match_case_insensitive_witness :
  (exists c, match_ (FixedStringSyntax (S := unit) "status"%string)
               "STATUS=404"%string 0 = Some {| type := full; consumed := c |}) /\
  match_ (FixedStringSyntax (S := unit) "status"%string) "stXtus"%string 0 = None /\
  consumed {| type := partial; consumed := 4 |} = Nat.min 6 (4 - 0).
Proof.
  split; [|split].
  - apply (proj1 (@FixedStringSyntax_match_case_insensitive unit
                    "status"%string "STATUS=404"%string 0)).
    reflexivity.
  - apply (proj1 (proj2 (@FixedStringSyntax_match_case_insensitive unit
                           "status"%string "stXtus"%string 0))).
    exists 2, "a"%char, "X"%char. repeat split. discriminate.
  - apply (proj2 (proj2 (@FixedStringSyntax_match_case_insensitive unit
                           "status"%string "stat"%string 0))).
    reflexivity.
Defined.

(** ** [StringOptionsSyntax] *)

Lemma maxBy_from_greatest {A : Type} (f : A -> nat) (l : list A) (r : A) :
  In (maxBy_from f r l) (r :: l) /\
  f r <= f (maxBy_from f r l) /\
  Forall (fun x => f x <= f (maxBy_from f r l)) l.
Proof.
  revert r; induction l as [|x l IH]; intros r; simpl.
  - repeat split; [now left | lia | constructor].
  - destruct (IH (if f r <? f x then x else r)) as [Hin [Hle Hall]].
    destruct (Nat.ltb_spec (f r) (f x)) as [E|E].
    + repeat split.
      * destruct Hin as [<-|Hin]; [right; now left | right; now right].
      * lia.
      * constructor; assumption.
    + repeat split.
      * destruct Hin as [<-|Hin]; [now left | right; now right].
      * assumption.
      * constructor; [lia | assumption].
Qed.

Lemma maxBy_greatest {A : Type} (f : A -> nat) (l : list A) (m : A) :
  maxBy l f = Some m -> In m l /\ forall x, In x l -> f x <= f m.
Proof.
  destruct l as [|r l]; simpl; [discriminate|].
  intros H; injection H as <-.
  destruct (maxBy_from_greatest f l r) as [Hin [Hle Hall]].
  split; [exact Hin|].
  intros x [<-|Hx]; [exact Hle|].
  rewrite Forall_forall in Hall. now apply Hall.
Qed.

Lemma maxBy_none {A : Type} (f : A -> nat) (l : list A) :
  maxBy l f = None <-> l = [].
Proof. destruct l; simpl; split; congruence. Qed.

Lemma filter_nil_existsb {A : Type} (f : A -> bool) (l : list A) :
  existsb f l = match filter f l with [] => false | _ :: _ => true end.
Proof.
  induction l as [|x l IH]; simpl; [reflexivity|].
  destruct (f x); simpl; [reflexivity | exact IH].
Qed.

Lemma StringOptionsSyntax_match_surviving (options : list jsstring)
    (value : jsstring) (index : nat) :
  StringOptionsSyntax_match options value index =
  maxBy (survivingResults options value index) consumed.
Proof.
  unfold StringOptionsSyntax_match, survivingResults, optionResults. simpl.
  rewrite partition_as_filter, filter_nil_existsb.
  destruct (filter isFull _); reflexivity.
Qed.

(** C5. [StringOptionsSyntax.match] answers with a surviving result of
    greatest [consumed], and with [undefined] exactly when none survives. *)
Theorem StringOptionsSyntax_match_longest_best {S : Type} (options : list jsstring)
    (value : jsstring) (index : nat) :
  (match_ (StringOptionsSyntax (S := S) options) value index = None <->
   survivingResults options value index = []) /\
  (forall m, match_ (StringOptionsSyntax (S := S) options) value index = Some m ->
     In m (survivingResults options value index) /\
     forall m', In m' (survivingResults options value index) ->
       consumed m' <= consumed m).
Proof.
  simpl. rewrite StringOptionsSyntax_match_surviving. split.
  - apply maxBy_none.
  - intros m. apply maxBy_greatest.
Qed.

(** On [status>=4] at the operator, [>=] and [>] both match in full and the
    longer one is returned; on [statusX] no option survives. *)
Lemma StringOptionsSyntax_match_longest_best_witness :
  (In {| type := full; consumed := 2 |}
      (survivingResults numberOperations "status>=4"%string 6) /\
   consumed {| type := full; consumed := 1 |} <= 2) /\
  match_ (StringOptionsSyntax (S := unit) numberOperations) "statusX"%string 6 = None.
Proof.
  split.
  - destruct (proj2 (@StringOptionsSyntax_match_longest_best unit numberOperations
                       "status>=4"%string 6)
                {| type := full; consumed := 2 |} eq_refl) as [Hin Hmax].
    split; [exact Hin|].
    apply (Hmax {| type := full; consumed := 1 |}).
    simpl. right. now left.
  - apply (proj1 (@StringOptionsSyntax_match_longest_best unit numberOperations
                    "statusX"%string 6)).
    reflexivity.
Defined.

Lemma getParsedValue_full (partMatch : jsstring -> nat -> option SyntaxMatch)
    (value : jsstring) (index c : nat) :
  partMatch value index = Some {| type := full; consumed := c |} ->
  getParsedValue partMatch value index = Returns (slice value index (index + c)).
Proof. unfold getParsedValue. intros ->. reflexivity. Qed.

Lemma getParsedValue_returns (partMatch : jsstring -> nat -> option SyntaxMatch)
    (value : jsstring) (index : nat) (s : jsstring) :
  getParsedValue partMatch value index = Returns s ->
  exists c, partMatch value index = Some {| type := full; consumed := c |}.
Proof.
  unfold getParsedValue.
  destruct (partMatch value index) as [[[|] c]|]; simpl; try discriminate.
  intros _. now exists c.
Qed.

(** C10. On a full match, [StringOptionsSyntax.parse] returns the matched
    text of the input as it was typed, whereas [FixedStringSyntax.parse]
    returns the configured keyword: with the option [http], the input
    [HTTP] parses to [HTTP] under the former and to [http] under the
    latter. *)
Theorem StringOptionsSyntax_parse_keeps_typed_case {S : Type}
    (options : list jsstring) (value : jsstring) (index c : nat) :
  match_ (StringOptionsSyntax (S := S) options) value index =
    Some {| type := full; consumed := c |} ->
  parse (StringOptionsSyntax (S := S) options) value index =
    Returns (VString (slice value index (index + c))) /\
  (forall matcher c',
     match_ (FixedStringSyntax (S := S) matcher) value index =
       Some {| type := full; consumed := c' |} ->
     parse (FixedStringSyntax (S := S) matcher) value index =
       Returns (VString matcher)) /\
  parse (StringOptionsSyntax (S := S) [ "http"%string : jsstring;
                                        "https"%string : jsstring ])
    "HTTP"%string 0 = Returns (VString "HTTP"%string) /\
  parse (FixedStringSyntax (S := S) "http"%string) "HTTP"%string 0 =
    Returns (VString "http"%string).
Proof.
  intros Hfull. split; [|split; [|split]].
  - simpl in *. now rewrite (getParsedValue_full _ _ _ Hfull).
  - intros matcher c' Hm. simpl in *. unfold FixedStringSyntax_parse.
    now rewrite (getParsedValue_full _ _ _ Hm).
  - reflexivity.
  - reflexivity.
Qed.

(** The protocol filter's operand typed in capitals. *)
Lemma StringOptionsSyntax_parse_keeps_typed_case_witness :
  parse (StringOptionsSyntax (S := unit) [ "http"%string : jsstring;
                                           "https"%string : jsstring ])
    "protocol=HTTPS"%string 9 = Returns (VString "HTTPS"%string).
Proof.
  apply (proj1 (@StringOptionsSyntax_parse_keeps_typed_case unit
                  [ "http"%string : jsstring; "https"%string : jsstring ]
                  "protocol=HTTPS"%string 9 5 eq_refl)).
Defined.

(** ** Matching at the exact end of the input *)

Lemma filterDefined_In {A : Type} (l : list (option A)) (a : A) :
  In a (filterDefined l) <-> In (Some a) l.
Proof.
  induction l as [|[x|] l IH]; simpl.
  - tauto.
  - rewrite IH. split; intros [H|H]; auto; left; congruence.
  - rewrite IH. split; [auto | intros [H|H]; [discriminate | assumption]].
Qed.

Lemma FixedStringSyntax_match_at_end (matcher value : jsstring) :
  exists t, FixedStringSyntax_match matcher value (length value) =
            Some {| type := t; consumed := 0 |}.
Proof.
  rewrite FixedStringSyntax_match_agree, skipn_all, Nat.sub_diag, Nat.min_0_r.
  replace (agree matcher []) with true by now destruct matcher.
  eexists. reflexivity.
Qed.

Lemma survivingResults_present (options : list jsstring) (value : jsstring)
    (index : nat) (m : SyntaxMatch) :
  In m (survivingResults options value index) ->
  exists option, In option options /\
                 FixedStringSyntax_match option value index = Some m.
Proof.
  unfold survivingResults. cbv zeta. intros H.
  assert (Hp : In m (filterDefined (optionResults options value index))).
  { destruct (existsb isFull _); apply filter_In in H; tauto. }
  apply filterDefined_In in Hp. unfold optionResults in Hp.
  apply in_map_iff in Hp. destruct Hp as [option [Ho Hin]].
  exists option. split; [assumption | exact Ho].
Qed.

Lemma survivingResults_nonempty (options : list jsstring) (value : jsstring)
    (index : nat) (option : jsstring) (m : SyntaxMatch) :
  In option options ->
  FixedStringSyntax_match option value index = Some m ->
  survivingResults options value index <> [].
Proof.
  intros Hin Hm.
  assert (Hp : In m (filterDefined (optionResults options value index))).
  { apply filterDefined_In. unfold optionResults. apply in_map_iff.
    exists option. split; [exact Hm | assumption]. }
  unfold survivingResults. cbv zeta.
  destruct (existsb isFull _) eqn:E.
  - rewrite filter_nil_existsb in E.
    destruct (filter isFull _); [discriminate | congruence].
  - assert (Hn : isFull m = false).
    { destruct (isFull m) eqn:Em; [|reflexivity].
      assert (existsb isFull (filterDefined (optionResults options value index)) = true)
        by (apply existsb_exists; eauto).
      congruence. }
    intros Hnil.
    assert (Hf : In m (filter (fun m => negb (isFull m))
                         (filterDefined (optionResults options value index)))).
    { apply filter_In. split; [assumption | now rewrite Hn]. }
    rewrite Hnil in Hf. destruct Hf.
Qed.

(** C4, as stated, fails for a [StringOptionsSyntax] built from an empty
    list of options: at the end of the empty input it answers [undefined]. *)
Lemma StringOptionsSyntax_without_options_at_end :
  match_ (StringOptionsSyntax (S := unit) []) ""%string
    (length (""%string : jsstring)) = None.
Proof. reflexivity. Qed.

(** C4, amended. At the exact end of the input every part answers with a
    match that consumes nothing: a [FixedStringSyntax], a [StringSyntax],
    a [NumberSyntax], a [FixedLengthNumberSyntax], and a
    [StringOptionsSyntax] that has at least one option. *)
Theorem match_at_end_of_input {S : Type} (value : jsstring) :
  (forall matcher, exists t,
     match_ (FixedStringSyntax (S := S) matcher) value (length value) =
     Some {| type := t; consumed := 0 |}) /\
  (forall templateText options, exists t,
     match_ (StringSyntax (S := S) templateText options) value (length value) =
     Some {| type := t; consumed := 0 |}) /\
  (forall name, exists t,
     match_ (NumberSyntax (S := S) name) value (length value) =
     Some {| type := t; consumed := 0 |}) /\
  (forall requiredLength generator, exists t,
     match_ (FixedLengthNumberSyntax (S := S) requiredLength generator)
       value (length value) =
     Some {| type := t; consumed := 0 |}) /\
  (forall options, options <> [] -> exists t,
     match_ (StringOptionsSyntax (S := S) options) value (length value) =
     Some {| type := t; consumed := 0 |}).
Proof.
  repeat split.
  - intros matcher. apply FixedStringSyntax_match_at_end.
  - intros templateText options. simpl.
    rewrite StringSyntax_match_run, runAt_at_end, Nat.eqb_refl.
    eexists; reflexivity.
  - intros name. simpl.
    rewrite StringSyntax_match_run, runAt_at_end, Nat.eqb_refl.
    eexists; reflexivity.
  - intros requiredLength generator. simpl.
    rewrite FixedLengthNumberSyntax_match_digits.
    unfold digitsAt. rewrite runAt_at_end. simpl.
    rewrite Nat.eqb_refl. simpl.
    destruct requiredLength; simpl; eexists; reflexivity.
  - intros options Hne. simpl.
    rewrite StringOptionsSyntax_match_surviving.
    destruct options as [|option options]; [congruence|].
    destruct (FixedStringSyntax_match_at_end option value) as [t0 H0].
    assert (Hs : survivingResults (option :: options) value (length value) <> []).
    { eapply survivingResults_nonempty; [now left | exact H0]. }
    destruct (maxBy (survivingResults (option :: options) value (length value))
                consumed) as [m|] eqn:E.
    + apply maxBy_greatest in E. destruct E as [Hin _].
      apply survivingResults_present in Hin.
      destruct Hin as [o [_ Ho]].
      destruct (FixedStringSyntax_match_at_end o value) as [t Ht].
      exists t. congruence.
    + apply maxBy_none in E. contradiction.
Qed.

(** The status filter's operator part at the end of [status]. *)
Lemma match_at_end_of_input_witness :
  numberOperations <> [] /\
  exists t, match_ (StringOptionsSyntax (S := unit) numberOperations)
              "status"%string 6 = Some {| type := t; consumed := 0 |}.
Proof.
  split; [discriminate|].
  apply (proj2 (proj2 (proj2 (proj2
           (@match_at_end_of_input unit "status"%string)))) numberOperations).
  discriminate.
Defined.

(** ** Parts whose [parse] agrees with their [match] *)

Lemma getParsedValue_lawful {S : Type}
    (partMatch : jsstring -> nat -> option SyntaxMatch)
    (suggest : jsstring -> nat -> option S -> list Suggestion)
    (convert : jsstring -> PartValue) :
  LawfulPart {| match_ := partMatch;
                getSuggestions := suggest;
                parse := fun value index =>
                  s <- getParsedValue partMatch value index ;;
                  Returns (convert s) |}.
Proof.
  split; simpl.
  - intros value index c H. rewrite (getParsedValue_full _ _ _ H).
    simpl. eauto.
  - intros value index parsed H.
    destruct (getParsedValue partMatch value index) as [s|e] eqn:E;
      [|discriminate].
    eapply getParsedValue_returns; eassumption.
Qed.

#[global] Instance FixedStringSyntax_lawful {S : Type} (matcher : jsstring) :
  LawfulPart (FixedStringSyntax (S := S) matcher).
Proof.
  split; simpl; unfold FixedStringSyntax_parse.
  - intros value index c H. rewrite (getParsedValue_full _ _ _ H).
    simpl. eauto.
  - intros value index parsed H.
    destruct (getParsedValue (FixedStringSyntax_match matcher) value index)
      as [s|e] eqn:E; [|discriminate].
    eapply getParsedValue_returns; eassumption.
Qed.

#[global] Instance StringSyntax_lawful {S : Type} (templateText : jsstring)
    (options : StringSyntaxOptions S) :
  LawfulPart (StringSyntax templateText options).
Proof. apply getParsedValue_lawful. Qed.

#[global] Instance NumberSyntax_lawful {S : Type} (name : jsstring) :
  LawfulPart (NumberSyntax (S := S) name).
Proof. apply getParsedValue_lawful. Qed.

#[global] Instance FixedLengthNumberSyntax_lawful {S : Type} (requiredLength : nat)
    (generator : option (Generator S)) :
  LawfulPart (FixedLengthNumberSyntax requiredLength generator).
Proof. apply getParsedValue_lawful. Qed.

#[global] Instance StringOptionsSyntax_lawful {S : Type} (options : list jsstring) :
  LawfulPart (StringOptionsSyntax (S := S) options).
Proof. apply getParsedValue_lawful. Qed.

(** The filter definitions of the module are made of lawful parts. *)
Lemma module_filters_lawful (Events : Type)
    (statusCodes methods queries : Generator Events) :
  Forall LawfulPart (filterSyntax (StatusFilter statusCodes)) /\
  Forall LawfulPart (filterSyntax (CompletedFilter Events)) /\
  Forall LawfulPart (filterSyntax (MethodFilter methods)) /\
  Forall LawfulPart (filterSyntax (ProtocolFilter Events)) /\
  Forall LawfulPart (filterSyntax (PortFilter Events)) /\
  Forall LawfulPart (filterSyntax (QueryFilter queries)).
Proof. repeat split; simpl; lawful_syntax. Qed.

Section Composition.
Context {T : Type}.
Variable value : jsstring.

Lemma parseFilter_loop_returns (syntax : list (SyntaxPart T)) :
  Forall LawfulPart syntax ->
  forall index parts final out,
    parseFilter_loop syntax value index parts = Returns (final, out) ->
    MatchesInOrder value syntax index final /\
    length out = length parts + length syntax.
Proof.
  induction 1 as [|part syntax Hpart _ IH]; intros index parts final out; simpl.
  - intros H; injection H as <- <-. split; [constructor | lia].
  - destruct (parse part value index) as [parsed|e] eqn:Ep; simpl;
      [|discriminate].
    destruct (parse_only_on_full _ _ Ep) as [c Hc]. rewrite Hc. simpl.
    intros H. apply IH in H. destruct H as [Hm Hl].
    split; [econstructor; eassumption|].
    rewrite Hl, length_app. simpl. lia.
Qed.

Lemma MatchesInOrder_parses (syntax : list (SyntaxPart T)) :
  Forall LawfulPart syntax ->
  forall index parts final,
    MatchesInOrder value syntax index final ->
    exists out, parseFilter_loop syntax value index parts = Returns (final, out).
Proof.
  induction 1 as [|part syntax Hpart _ IH]; intros index parts final Hm;
    inversion Hm; subst; simpl.
  - eauto.
  - match goal with H : match_ part value index = _ |- _ =>
      destruct (parse_on_full _ _ H) as [parsed ->]; rewrite H end.
    simpl. apply IH. assumption.
Qed.

(** A strict parse that returns is repeated step for step by the
    best-effort loop. *)
Lemma parseFilter_loop_tryParseFilter_loop (syntax : list (SyntaxPart T)) :
  Forall LawfulPart syntax ->
  forall index parts state,
    parseFilter_loop syntax value index parts = Returns state ->
    tryParseFilter_loop syntax value index parts = Returns state.
Proof.
  induction 1 as [|part syntax Hpart _ IH]; intros index parts state; simpl.
  - trivial.
  - destruct (parse part value index) as [parsed|e] eqn:Ep; simpl;
      [|discriminate].
    destruct (parse_only_on_full _ _ Ep) as [c Hc]. rewrite Hc. simpl.
    apply IH.
Qed.

Lemma parseFilter_loop_app (front back : list (SyntaxPart T)) :
  forall index parts,
    parseFilter_loop (front ++ back) value index parts =
    (state <- parseFilter_loop front value index parts ;;
     parseFilter_loop back value (fst state) (snd state)).
Proof.
  induction front as [|part front IH]; intros index parts; simpl.
  - reflexivity.
  - destruct (parse part value index) as [parsed|e]; simpl; [|reflexivity].
    destruct (match_ part value index) as [m|]; [apply IH | reflexivity].
Qed.

(** The best-effort loop always returns; what it returns is the strict
    parse of the first [n] parts, and part [n], if there is one, does not
    match in full where that parse ends. *)
Lemma tryParseFilter_loop_prefix (syntax : list (SyntaxPart T)) :
  Forall LawfulPart syntax ->
  forall index parts,
    exists n final out,
      tryParseFilter_loop syntax value index parts = Returns (final, out) /\
      n <= length syntax /\
      parseFilter_loop (firstn n syntax) value index parts = Returns (final, out) /\
      (n < length syntax ->
       exists part, nth_error syntax n = Some part /\
         forall c, match_ part value final <>
                   Some {| type := full; consumed := c |}).
Proof.
  induction 1 as [|part syntax Hpart _ IH]; intros index parts; simpl.
  - exists 0, index, parts. simpl. repeat split; [lia | lia].
  - destruct (match_ part value index) as [[[|] c]|] eqn:Em; simpl.
    + exists 0, index, parts. simpl. repeat split; [lia|].
      intros _. exists part. split; [reflexivity | congruence].
    + destruct (parse_on_full _ _ Em) as [parsed Ep]. rewrite Ep. simpl.
      destruct (IH (index + c) (parts ++ [parsed]))
        as [n [final [out [Ht [Hn [Hp Hstop]]]]]].
      exists (S n), final, out. simpl. rewrite Ep, Em. simpl.
      repeat split; [assumption | lia | assumption|].
      intros Hlt. apply Hstop. lia.
    + exists 0, index, parts. simpl. repeat split; [lia|].
      intros _. exists part. split; [reflexivity | congruence].
Qed.
End Composition.

Lemma parseFilter_returns_loop {T : Type} (filterClass : FilterClass T)
    (value : jsstring) (values : list PartValue) :
  parseFilter filterClass value = Returns values <->
  exists final,
    parseFilter_loop (filterSyntax filterClass) value 0 [] = Returns (final, values).
Proof.
  unfold parseFilter.
  destruct (parseFilter_loop (filterSyntax filterClass) value 0 [])
    as [[final out]|e]; simpl.
  - split.
    + intros H; injection H as <-. now exists final.
    + intros [final' H]. injection H as _ <-. reflexivity.
  - split; [discriminate | intros [final H]; discriminate].
Qed.

(** C1, as stated, fails: [completed!] parses under the one-keyword
    definition of the completed filter, although the loop ends at position
    9 and the exclamation mark is left over. *)
Lemma parseFilter_accepts_trailing_text :
  parseFilter (CompletedFilter unit) "completed!"%string =
    Returns [ VString "completed"%string ] /\
  parseFilter_loop (filterSyntax (CompletedFilter unit)) "completed!"%string 0 [] =
    Returns (9, [ VString "completed"%string ]) /\
  9 < length ("completed!"%string : jsstring).
Proof. repeat split. simpl. lia. Qed.

(** C1, amended. For a definition made of lawful parts, [parseFilter]
    returns exactly when every part, taken in order from position 0 and
    each starting where the previous one stopped, matches in full; in every
    other case it throws. It then returns one value per part. Whether the
    last part stops at the end of the input plays no role. *)
Theorem parseFilter_returns_iff_all_full {T : Type} (filterClass : FilterClass T)
    (value : jsstring) :
  Forall LawfulPart (filterSyntax filterClass) ->
  ((exists values, parseFilter filterClass value = Returns values) <->
   (exists final, MatchesInOrder value (filterSyntax filterClass) 0 final)) /\
  ((exists e, parseFilter filterClass value = Throws e) <->
   ~ (exists final, MatchesInOrder value (filterSyntax filterClass) 0 final)) /\
  (forall values, parseFilter filterClass value = Returns values ->
     length values = length (filterSyntax filterClass)).
Proof.
  intros Hlaw.
  assert (Hiff : (exists values, parseFilter filterClass value = Returns values) <->
                 (exists final,
                    MatchesInOrder value (filterSyntax filterClass) 0 final)).
  { split.
    - intros [values H]. apply parseFilter_returns_loop in H.
      destruct H as [final H]. exists final.
      eapply parseFilter_loop_returns; eassumption.
    - intros [final H].
      destruct (MatchesInOrder_parses Hlaw [] H) as [out Hout].
      exists out. apply parseFilter_returns_loop. eauto. }
  split; [exact Hiff|]. split.
  - rewrite <- Hiff. split.
    + intros [e He] [values Hv]. congruence.
    + intros Hno. destruct (parseFilter filterClass value) as [values|e] eqn:E.
      * exfalso. apply Hno. eauto.
      * eauto.
  - intros values H. apply parseFilter_returns_loop in H.
    destruct H as [final H].
    apply (parseFilter_loop_returns value Hlaw) in H. simpl in H. tauto.
Qed.

(** The status filter on [status=404]. *)
Lemma parseFilter_returns_iff_all_full_witness :
  Forall LawfulPart (filterSyntax (StatusFilter (fun _ _ (_ : unit) => []))) /\
  exists final,
    MatchesInOrder "status=404"%string
      (filterSyntax (StatusFilter (fun _ _ (_ : unit) => []))) 0 final.
Proof.
  assert (Hlaw : Forall LawfulPart
                   (filterSyntax (StatusFilter (fun _ _ (_ : unit) => []))))
    by (simpl; lawful_syntax).
  split; [exact Hlaw|].
  apply (proj1 (proj1 (@parseFilter_returns_iff_all_full unit
                         (StatusFilter (fun _ _ _ => []))
                         "status=404"%string Hlaw))).
  eexists. reflexivity.
Defined.

(** C3. For a definition made of lawful parts, on every input that
    [parseFilter] parses, [tryParseFilter] returns the same values in the
    same order. *)
Theorem tryParseFilter_agrees_with_parseFilter {T : Type}
    (filterClass : FilterClass T) (value : jsstring) (values : list PartValue) :
  Forall LawfulPart (filterSyntax filterClass) ->
  parseFilter filterClass value = Returns values ->
  tryParseFilter filterClass value = Returns values.
Proof.
  intros Hlaw H. apply parseFilter_returns_loop in H. destruct H as [final H].
  unfold tryParseFilter.
  now rewrite (parseFilter_loop_tryParseFilter_loop value Hlaw _ _ H).
Qed.

(** The port filter on [port>=8080]. *)
Lemma tryParseFilter_agrees_with_parseFilter_witness :
  tryParseFilter (PortFilter unit) "port>=8080"%string =
  Returns [ VString "port"%string; VString ">="%string; VNumber (Num 8080) ].
Proof.
  apply (@tryParseFilter_agrees_with_parseFilter unit
           (PortFilter unit) "port>=8080"%string).
  - simpl. lawful_syntax.
  - reflexivity.
Defined.

Lemma firstn_past_nth {A : Type} (l : list A) (n k : nat) (x : A) :
  nth_error l n = Some x -> n < k ->
  firstn k l = firstn n l ++ x :: firstn (k - Datatypes.S n) (skipn (Datatypes.S n) l).
Proof.
  revert n k; induction l as [|a l IH]; intros n k Hnth Hlt.
  - destruct n; discriminate.
  - destruct k as [|k]; [lia|].
    destruct n as [|n]; simpl in *.
    + injection Hnth as ->. now rewrite Nat.sub_0_r.
    + f_equal. apply IH; [assumption | lia].
Qed.

(** C8. For a definition made of lawful parts, [tryParseFilter] always
    returns and never throws. Its result is what [parseFilter]
    returns for the first [n] parts of the definition, where [n] is the
    greatest number of leading parts that all match in full: every longer
    prefix of the definition fails to parse, and part [n], if there is one,
    does not match in full at the position where the first [n] stop. *)
Theorem tryParseFilter_longest_full_prefix {T : Type}
    (filterClass : FilterClass T) (value : jsstring) :
  Forall LawfulPart (filterSyntax filterClass) ->
  exists n final values,
    tryParseFilter filterClass value = Returns values /\
    length values = n /\
    n <= length (filterSyntax filterClass) /\
    parseFilter_loop (firstn n (filterSyntax filterClass)) value 0 [] =
      Returns (final, values) /\
    parseFilter {| filterSyntax := firstn n (filterSyntax filterClass) |} value =
      Returns values /\
    (n < length (filterSyntax filterClass) ->
     exists part, nth_error (filterSyntax filterClass) n = Some part /\
       forall c, match_ part value final <>
                 Some {| type := full; consumed := c |}) /\
    (forall k, n < k <= length (filterSyntax filterClass) ->
       exists e,
         parseFilter {| filterSyntax := firstn k (filterSyntax filterClass) |} value =
         Throws e).
Proof.
  intros Hlaw.
  destruct (tryParseFilter_loop_prefix value Hlaw 0 [])
    as [n [final [values [Ht [Hn [Hp Hstop]]]]]].
  exists n, final, values.
  assert (Hlawn : Forall LawfulPart (firstn n (filterSyntax filterClass))).
  { apply Forall_forall. intros part Hin.
    rewrite Forall_forall in Hlaw. apply Hlaw.
    rewrite <- (firstn_skipn n (filterSyntax filterClass)).
    apply in_or_app. now left. }
  repeat split.
  - unfold tryParseFilter. now rewrite Ht.
  - destruct (parseFilter_loop_returns value Hlawn _ _ Hp) as [_ Hl].
    simpl in Hl. rewrite length_firstn in Hl. lia.
  - assumption.
  - assumption.
  - apply parseFilter_returns_loop. simpl. eauto.
  - assumption.
  - intros k [Hk1 Hk2].
    destruct (Hstop ltac:(lia)) as [part [Hnth Hnot]].
    pose proof (firstn_past_nth _ Hnth Hk1) as Hsplit.
    unfold parseFilter. simpl. rewrite Hsplit, parseFilter_loop_app, Hp. simpl.
    destruct (parse part value final) as [parsed|e] eqn:Ep; simpl.
    + rewrite Forall_forall in Hlaw.
      assert (Hl : LawfulPart part)
        by (apply Hlaw; eapply nth_error_In; eassumption).
      destruct (parse_only_on_full _ _ Ep) as [c Hc].
      exfalso. exact (Hnot c Hc).
    + eauto.
Qed.

(** The status filter on [status=40]: two values, the third part being
    only partially matched. *)
Lemma tryParseFilter_longest_full_prefix_witness :
  exists n final values,
    tryParseFilter (StatusFilter (fun _ _ (_ : unit) => [])) "status=40"%string =
      Returns values /\
    length values = n /\ n <= 3 /\
    parseFilter_loop
      (firstn n (filterSyntax (StatusFilter (fun _ _ (_ : unit) => []))))
      "status=40"%string 0 [] = Returns (final, values).
Proof.
  destruct (@tryParseFilter_longest_full_prefix unit
              (StatusFilter (fun _ _ _ => [])) "status=40"%string
              ltac:(simpl; lawful_syntax))
    as [n [final [values [H1 [H2 [H3 [H4 _]]]]]]].
  exists n, final, values. repeat split; assumption.
Defined.

(** * Further properties of the syntax parts *)

(** ** [getStringAt] *)

Lemma takeWhile_nil_inv {A : Type} (p : A -> bool) (l : list A) (x : A) :
  takeWhile p l = [] -> nth_error l 0 = Some x -> p x = false.
Proof.
  destruct l as [|y l]; simpl; [discriminate|].
  destruct (p y) eqn:E; [discriminate|].
  intros _ H; injection H as <-; exact E.
Qed.

(** X1. What [getStringAt] returns is the text found at [index]: it lies
    inside the input, holds allowed characters only, and is followed by the
    end of the input or by a character that is not allowed. It returns
    [undefined] exactly when [index] is past the end or the character at
    [index] is not allowed. *)
Theorem getStringAt_maximal (value : jsstring) (index : nat)
    (allowed : list CharRange) :
  (forall s, getStringAt value index allowed = Some s ->
     s = slice value index (index + length s) /\
     index + length s <= length value /\
     Forall (fun c => allowedBy allowed c = true) s /\
     (forall c, nth_error value (index + length s) = Some c ->
        allowedBy allowed c = false)) /\
  (getStringAt value index allowed = None <->
   length value < index \/
   exists c, nth_error value index = Some c /\ allowedBy allowed c = false).
Proof.
  rewrite getStringAt_run.
  pose proof (runAt_in_bounds allowed value index) as Hlen.
  assert (Hrun : forall s, runAt allowed value index = s ->
            s = slice value index (index + length s) /\
            Forall (fun c => allowedBy allowed c = true) s /\
            (forall c, nth_error value (index + length s) = Some c ->
               allowedBy allowed c = false)).
  { intros s <-. unfold runAt. repeat split.
    - now rewrite slice_from, takeWhile_prefix.
    - apply takeWhile_all.
    - intros c Hc. rewrite <- nth_error_skipn_add in Hc.
      eapply takeWhile_stops; eassumption. }
  split.
  - intros s Hs.
    destruct (runAt allowed value index) as [|c run] eqn:E.
    + destruct (Nat.eqb_spec index (length value)) as [Ei|Ei]; [|discriminate].
      injection Hs as <-. destruct (Hrun [] eq_refl) as [H1 [H2 H3]].
      repeat split; auto. simpl. lia.
    + injection Hs as <-. destruct (Hrun (c :: run) eq_refl) as [H1 [H2 H3]].
      repeat split; auto. simpl in *.
      destruct (Nat.le_gt_cases index (length value)); lia.
  - destruct (runAt allowed value index) as [|c run] eqn:E.
    + destruct (Nat.eqb_spec index (length value)) as [Ei|Ei].
      * split; [discriminate|]. intros [H|[c [Hc _]]]; [lia|].
        assert (index < length value) by (apply nth_error_Some; congruence). lia.
      * split; [|reflexivity]. intros _.
        destruct (Nat.lt_ge_cases (length value) index) as [Hgt|Hle]; [now left|].
        right. destruct (nth_error value index) as [c|] eqn:Hc.
        -- exists c. split; [reflexivity|].
           unfold runAt in E. eapply takeWhile_nil_inv; [exact E|].
           now rewrite nth_error_skipn_add, Nat.add_0_r.
        -- apply nth_error_None in Hc. lia.
    + split; [discriminate|]. intros [H|[x [Hx Hno]]].
      * simpl in Hlen. lia.
      * unfold runAt in E.
        rewrite (@takeWhile_nil_head _ (allowedBy allowed) (skipn index value) x)
          in E; [discriminate| |assumption].
        now rewrite nth_error_skipn_add, Nat.add_0_r.
Qed.

(** The letters of [method=GET&x] from position 7. *)
Lemma getStringAt_maximal_witness :
  ("GET"%string : jsstring) = slice "method=GET&x"%string 7 (7 + 3) /\
  7 + 3 <= 12 /\
  getStringAt "method=GET&x"%string 0 [ (48, 57) ] = None.
Proof.
  destruct (getStringAt_maximal "method=GET&x"%string 7 [ (97, 122); (65, 90) ])
    as [Hsome _].
  destruct (Hsome "GET"%string eq_refl) as [H1 [H2 _]].
  split; [exact H1|]. split; [exact H2|].
  apply (proj2 (getStringAt_maximal "method=GET&x"%string 0 [ (48, 57) ])).
  right. exists "m"%char. split; reflexivity.
Defined.

(** ** [FixedStringSyntax]: extension, case, suggestion *)

Lemma agree_refl (keyword : jsstring) : agree keyword keyword = true.
Proof.
  induction keyword as [|e keyword IH]; simpl; [reflexivity|].
  now rewrite Ascii.eqb_refl, IH.
Qed.

Lemma agree_nil_r (keyword : jsstring) : agree keyword [] = true.
Proof. now destruct keyword. Qed.

(** Text that agrees with the keyword and is shorter still agrees once the
    rest of the keyword is appended. *)
Lemma agree_completed (keyword rest : jsstring) :
  agree keyword rest = true -> length rest <= length keyword ->
  agree keyword (rest ++ skipn (length rest) keyword) = true.
Proof.
  revert rest; induction keyword as [|e keyword IH]; intros rest Ha Hl.
  - reflexivity.
  - destruct rest as [|c rest]; simpl in *.
    + now rewrite Ascii.eqb_refl, agree_refl.
    + apply andb_true_iff in Ha. destruct Ha as [Hc Ha].
      rewrite Hc. simpl. apply IH; [assumption | lia].
Qed.

(** Agreement only looks at the lower-cased keyword and text. *)
Lemma agree_up_to_case (keyword1 keyword2 rest1 rest2 : jsstring) :
  toLowerCase keyword1 = toLowerCase keyword2 ->
  toLowerCase rest1 = toLowerCase rest2 ->
  agree keyword1 rest1 = agree keyword2 rest2.
Proof.
  revert keyword2 rest1 rest2;
    induction keyword1 as [|e1 keyword1 IH]; intros [|e2 keyword2] rest1 rest2 Hk Hr;
    simpl in *; try discriminate; try reflexivity.
  destruct rest1 as [|c1 rest1], rest2 as [|c2 rest2]; simpl in *;
    try discriminate; try reflexivity.
  injection Hk as He Hk. injection Hr as Hc Hr.
  rewrite He, Hc. f_equal. now apply IH.
Qed.

Lemma toLowerCase_length (s : jsstring) : length (toLowerCase s) = length s.
Proof. apply length_map. Qed.

Lemma toLowerCase_skipn (n : nat) (s : jsstring) :
  toLowerCase (skipn n s) = skipn n (toLowerCase s).
Proof. unfold toLowerCase. now rewrite skipn_map. Qed.

Lemma same_length_up_to_case (s1 s2 : jsstring) :
  toLowerCase s1 = toLowerCase s2 -> length s1 = length s2.
Proof.
  intros H. rewrite <- (toLowerCase_length s1), <- (toLowerCase_length s2).
  now rewrite H.
Qed.

Lemma FixedStringSyntax_match_up_to_case (matcher1 matcher2 value1 value2 : jsstring)
    (index : nat) :
  toLowerCase matcher1 = toLowerCase matcher2 ->
  toLowerCase value1 = toLowerCase value2 ->
  FixedStringSyntax_match matcher1 value1 index =
  FixedStringSyntax_match matcher2 value2 index.
Proof.
  intros Hm Hv. rewrite !FixedStringSyntax_match_agree.
  rewrite (agree_up_to_case matcher1 matcher2
             (skipn index value1) (skipn index value2) Hm)
    by (now rewrite !toLowerCase_skipn, Hv).
  now rewrite (same_length_up_to_case _ _ Hm), (same_length_up_to_case _ _ Hv).
Qed.

Lemma skipn_app_inside {A : Type} (l tail : list A) (n : nat) :
  n <= length l -> skipn n (l ++ tail) = skipn n l ++ tail.
Proof.
  intros H. rewrite skipn_app.
  now replace (n - length l) with 0 by lia.
Qed.

Lemma FixedStringSyntax_match_partial_extends (matcher value : jsstring)
    (index c : nat) :
  index <= length value ->
  FixedStringSyntax_match matcher value index =
    Some {| type := partial; consumed := c |} ->
  index + c = length value /\
  FixedStringSyntax_match matcher (value ++ skipn c matcher) index =
    Some {| type := full; consumed := length matcher |}.
Proof.
  intros Hi. rewrite !FixedStringSyntax_match_agree. cbv zeta.
  destruct (agree matcher (skipn index value)) eqn:Ha; [|discriminate].
  destruct (Nat.eqb_spec (Nat.min (length matcher) (length value - index))
              (length matcher)) as [E|E]; [discriminate|].
  intros H; injection H as <-.
  assert (Hc : Nat.min (length matcher) (length value - index) =
               length value - index) by lia.
  rewrite Hc. split; [lia|].
  rewrite skipn_app_inside by assumption.
  replace (length value - index) with (length (skipn index value))
    by apply length_skipn.
  rewrite agree_completed; [|assumption | rewrite length_skipn; lia].
  rewrite length_app, !length_skipn.
  replace (Nat.min (length matcher)
             (length value + (length matcher - (length value - index)) - index))
    with (length matcher) by lia.
  now rewrite Nat.eqb_refl.
Qed.

(** X2. A partial match of a [FixedStringSyntax] has consumed the input up
    to its end, and appending the part of the keyword not yet typed turns
    it into a full match of the whole keyword. *)
Theorem FixedStringSyntax_partial_extends {S : Type}
    (matcher value : jsstring) (index c : nat) :
  index <= length value ->
  match_ (FixedStringSyntax (S := S) matcher) value index =
    Some {| type := partial; consumed := c |} ->
  index + c = length value /\
  match_ (FixedStringSyntax (S := S) matcher) (value ++ skipn c matcher) index =
    Some {| type := full; consumed := length matcher |}.
Proof. simpl. apply FixedStringSyntax_match_partial_extends. Qed.

(** [STA] typed where [status] is expected. *)
Lemma FixedStringSyntax_partial_extends_witness :
  0 + 3 = 3 /\
  match_ (FixedStringSyntax (S := unit) "status"%string) "STAtus"%string 0 =
    Some {| type := full; consumed := 6 |}.
Proof.
  apply (@FixedStringSyntax_partial_extends unit "status"%string "STA"%string 0 3).
  - simpl. lia.
  - reflexivity.
Defined.

(** X3. Matching ignores case throughout: two inputs that are equal up to
    case get the same answer from a [FixedStringSyntax], whichever of two
    keywords equal up to case it was built from, and the same answer from
    a [StringOptionsSyntax]. *)
Theorem match_ignores_case {S : Type} (value1 value2 : jsstring) (index : nat) :
  toLowerCase value1 = toLowerCase value2 ->
  (forall matcher1 matcher2,
     toLowerCase matcher1 = toLowerCase matcher2 ->
     match_ (FixedStringSyntax (S := S) matcher1) value1 index =
     match_ (FixedStringSyntax (S := S) matcher2) value2 index) /\
  (forall options,
     match_ (StringOptionsSyntax (S := S) options) value1 index =
     match_ (StringOptionsSyntax (S := S) options) value2 index).
Proof.
  intros Hv. split.
  - intros matcher1 matcher2 Hm. simpl.
    now apply FixedStringSyntax_match_up_to_case.
  - intros options. simpl. unfold StringOptionsSyntax_match.
    rewrite (map_ext (fun m => FixedStringSyntax_match m value1 index)
                     (fun m => FixedStringSyntax_match m value2 index));
      [reflexivity|].
    intros m. now apply FixedStringSyntax_match_up_to_case.
Qed.

(** [protocol=HTTPS] against [PROTOCOL=https]. *)
Lemma match_ignores_case_witness :
  match_ (FixedStringSyntax (S := unit) "protocol"%string)
    "protocol=HTTPS"%string 0 =
  match_ (FixedStringSyntax (S := unit) "Protocol"%string)
    "PROTOCOL=https"%string 0.
Proof.
  apply (proj1 (@match_ignores_case unit "protocol=HTTPS"%string
                  "PROTOCOL=https"%string 0 eq_refl)).
  reflexivity.
Defined.

Lemma FixedStringSyntax_match_replaced (matcher value : jsstring) (index : nat) :
  index <= length value ->
  FixedStringSyntax_match matcher (replaceFrom value index matcher) index =
  Some {| type := full; consumed := length matcher |}.
Proof.
  intros Hi. rewrite FixedStringSyntax_match_agree. unfold replaceFrom.
  assert (Hl : length (firstn index value) = index)
    by (rewrite length_firstn; lia).
  replace (skipn index (firstn index value ++ matcher)) with matcher.
  - rewrite agree_refl, length_app, Hl. cbv zeta.
    replace (Nat.min (length matcher) (index + length matcher - index))
      with (length matcher) by lia.
    now rewrite Nat.eqb_refl.
  - rewrite skipn_app, Hl, Nat.sub_diag.
    rewrite <- Hl at 1. now rewrite skipn_all.
Qed.

(** X4. [FixedStringSyntax.getSuggestions] offers one suggestion, which is
    no template and shows and inserts the keyword as configured; once it is
    inserted at the part's position the part matches in full. *)
Theorem FixedStringSyntax_suggestion_completes {S : Type}
    (matcher value : jsstring) (index : nat) (context : option S) :
  index <= length value ->
  getSuggestions (FixedStringSyntax matcher) value index context =
    [ plain matcher ] /\
  forall s,
    In s (getSuggestions (FixedStringSyntax matcher) value index context) ->
    template s = false /\
    match_ (FixedStringSyntax (S := S) matcher)
      (replaceFrom value index (inserted s)) index =
    Some {| type := full; consumed := length (inserted s) |}.
Proof.
  intros Hi. split; [reflexivity|].
  intros s [<-|[]]. split; [reflexivity|].
  simpl. now apply FixedStringSyntax_match_replaced.
Qed.

(** [sta] typed where [status] is suggested. *)
Lemma FixedStringSyntax_suggestion_completes_witness :
  match_ (FixedStringSyntax (S := unit) "status"%string)
    (replaceFrom "sta"%string 0 "status"%string) 0 =
  Some {| type := full; consumed := 6 |}.
Proof.
  destruct (@FixedStringSyntax_suggestion_completes unit "status"%string
              "sta"%string 0 None ltac:(simpl; lia)) as [_ H].
  apply (H (plain "status"%string)). now left.
Defined.

(** ** Suggestions of [StringSyntax] and [NumberSyntax] *)

Lemma takeWhile_whole {A : Type} (p : A -> bool) (l : list A) :
  Forall (fun x => p x = true) l -> takeWhile p l = l.
Proof.
  induction 1 as [|x l Hx _ IH]; simpl; [reflexivity|].
  now rewrite Hx, IH.
Qed.

Lemma skipn_replaceFrom (value : jsstring) (index : nat) (text : jsstring) :
  index <= length value ->
  skipn index (replaceFrom value index text) = text /\
  length (replaceFrom value index text) = index + length text.
Proof.
  intros Hi. unfold replaceFrom.
  assert (Hl : length (firstn index value) = index)
    by (rewrite length_firstn; lia).
  split.
  - rewrite skipn_app, Hl, Nat.sub_diag.
    rewrite <- Hl at 1. now rewrite skipn_all.
  - rewrite length_app, Hl. reflexivity.
Qed.

Lemma runAt_replaceFrom (allowed : list CharRange) (value : jsstring)
    (index : nat) (text : jsstring) :
  index <= length value ->
  Forall (fun c => allowedBy allowed c = true) text ->
  runAt allowed (replaceFrom value index text) index = text.
Proof.
  intros Hi Hall. unfold runAt.
  rewrite (proj1 (skipn_replaceFrom value text Hi)).
  now apply takeWhile_whole.
Qed.

Lemma none_refused_Forall {A : Type} (p : A -> bool) (l : list A) :
  negb (existsb (fun c => negb (p c)) l) = true ->
  Forall (fun c => p c = true) l.
Proof.
  induction l as [|c l IH]; simpl; intros H; [constructor|].
  apply negb_true_iff, orb_false_iff in H. destruct H as [Hc Hl].
  constructor; [now apply negb_false_iff in Hc | apply IH; now rewrite Hl].
Qed.

Lemma startsWith_refl (s : jsstring) : startsWith s s = true.
Proof.
  induction s as [|c s IH]; simpl; [reflexivity|].
  now rewrite Ascii.eqb_refl, IH.
Qed.

Lemma startsWith_nil (s : jsstring) : startsWith s [] = true.
Proof. now destruct s. Qed.

Lemma startsWith_app (s tail : jsstring) : startsWith (s ++ tail) s = true.
Proof.
  induction s as [|c s IH]; simpl; [apply startsWith_nil|].
  now rewrite Ascii.eqb_refl, IH.
Qed.

(** What has been typed for a [StringSyntax] at [index]: the run of allowed
    characters there, whether or not [getStringAt] is defined. *)
Lemma fitsExisting_run (allowed : list CharRange) (value : jsstring) (index : nat)
    (suggestion : jsstring) :
  fitsExisting (getStringAt value index allowed) suggestion = true ->
  startsWith suggestion (runAt allowed value index) = true.
Proof.
  rewrite getStringAt_run.
  destruct (runAt allowed value index) as [|c run];
    [intros _; apply startsWith_nil|].
  simpl. trivial.
Qed.

Lemma StringSyntax_match_replaced {S : Type} (options : StringSyntaxOptions S)
    (value : jsstring) (index : nat) (text : jsstring) :
  index <= length value ->
  Forall (fun c => allowedBy (allowedCharRanges options) c = true) text ->
  text <> [] \/ allowEmpty options = true ->
  StringSyntax_match options (replaceFrom value index text) index =
  Some {| type := full; consumed := length text |}.
Proof.
  intros Hi Hall Hne. rewrite StringSyntax_match_run.
  rewrite runAt_replaceFrom by assumption.
  destruct text as [|c text]; [|reflexivity].
  rewrite (proj2 (skipn_replaceFrom value [] Hi)). simpl.
  rewrite Nat.add_0_r, Nat.eqb_refl.
  destruct Hne as [Hne|Hne]; [congruence | now rewrite Hne].
Qed.

(** X5. Every suggestion of a [StringSyntax] that is no template shows
    what it inserts, consists of allowed characters, and begins with the
    allowed characters already typed at [index]; when it is not empty, or
    the part allows the empty string, inserting it at the part's position
    makes the part match it in full. *)
Theorem StringSyntax_suggestions_fit {S : Type} (templateText : jsstring)
    (options : StringSyntaxOptions S)
    (value : jsstring) (index : nat) (context : option S) (s : Suggestion) :
  index <= length value ->
  In s (getSuggestions (StringSyntax templateText options) value index context) ->
  template s = false ->
  showAs s = inserted s /\
  Forall (fun c => allowedBy (allowedCharRanges options) c = true) (inserted s) /\
  startsWith (inserted s) (runAt (allowedCharRanges options) value index) = true /\
  (inserted s <> [] \/ allowEmpty options = true ->
   match_ (StringSyntax templateText options)
     (replaceFrom value index (inserted s)) index =
   Some {| type := full; consumed := length (inserted s) |}).
Proof.
  intros Hi Hin Hplain.
  assert (Hfacts :
            showAs s = inserted s /\
            Forall (fun c => allowedBy (allowedCharRanges options) c = true)
              (inserted s) /\
            startsWith (inserted s) (runAt (allowedCharRanges options) value index)
              = true).
  { simpl in Hin. unfold StringSyntax_getSuggestions in Hin.
    assert (Hgen : forall l,
              In s (map plain
                      (filter (fun suggestion =>
                         fitsExisting
                           (getStringAt value index (allowedCharRanges options))
                           suggestion &&
                         negb (existsb
                                 (fun c => negb (allowedBy (allowedCharRanges options) c))
                                 suggestion)) l)) ->
              showAs s = inserted s /\
              Forall (fun c => allowedBy (allowedCharRanges options) c = true)
                (inserted s) /\
              startsWith (inserted s)
                (runAt (allowedCharRanges options) value index) = true).
    { intros l Hl. apply in_map_iff in Hl. destruct Hl as [g [<- Hg]].
      apply filter_In in Hg. destruct Hg as [_ Hg].
      apply andb_true_iff in Hg. destruct Hg as [Hfit Hok].
      repeat split; [now apply none_refused_Forall | now apply fitsExisting_run]. }
    assert (Hrest : In s
              match context, suggestionGenerator options with
              | Some ctx, Some generator =>
                  map plain
                    (filter (fun suggestion =>
                       fitsExisting
                         (getStringAt value index (allowedCharRanges options))
                         suggestion &&
                       negb (existsb
                               (fun c => negb (allowedBy (allowedCharRanges options) c))
                               suggestion))
                       (generator value index ctx))
              | _, _ => []
              end ->
              showAs s = inserted s /\
              Forall (fun c => allowedBy (allowedCharRanges options) c = true)
                (inserted s) /\
              startsWith (inserted s)
                (runAt (allowedCharRanges options) value index) = true).
    { destruct context as [ctx|]; [|intros []].
      destruct (suggestionGenerator options) as [generator|]; [|intros []].
      apply Hgen. }
    destruct (getStringAt value index (allowedCharRanges options))
      as [[|c typed]|] eqn:Et.
    - destruct Hin as [<-|Hin]; [discriminate | now apply Hrest].
    - destruct Hin as [<-|Hin]; [|now apply Hrest].
      rewrite getStringAt_run in Et.
      destruct (runAt (allowedCharRanges options) value index) as [|c' run] eqn:Er.
      + destruct (index =? length value); discriminate.
      + injection Et as <- <-. repeat split.
        * rewrite <- Er. apply takeWhile_all.
        * apply startsWith_refl.
    - destruct Hin as [<-|Hin]; [discriminate | now apply Hrest]. }
  destruct Hfacts as [Hshow [Hall Hstart]].
  repeat split; try assumption.
  intros Hne. simpl. now apply StringSyntax_match_replaced.
Qed.

(** The method filter on [method=GE] when [GET] and [POST] were seen:
    [GET] is suggested, and inserting it completes the part. *)
Lemma StringSyntax_suggestions_fit_witness :
  let options := {| allowEmpty := false;
                    allowedChars := Some [ (97, 122); (65, 90) ];
                    suggestionGenerator :=
                      Some (fun _ _ (_ : unit) =>
                              [ "GET"%string : jsstring; "POST"%string : jsstring ]) |} in
  match_ (StringSyntax "method"%string options)
    (replaceFrom "method=GE"%string 7 "GET"%string) 7 =
  Some {| type := full; consumed := 3 |}.
Proof.
  intros options.
  refine (proj2 (proj2 (proj2
            (@StringSyntax_suggestions_fit unit "method"%string options
               "method=GE"%string 7 (Some tt) (plain "GET"%string) _ _ _))) _).
  - simpl. lia.
  - simpl. right. now left.
  - reflexivity.
  - left. discriminate.
Defined.

(** X6. A [NumberSyntax] offers exactly one suggestion and takes none from
    the context: the digits typed at [index] when there are some, which
    the part then matches in full, and otherwise the template that shows
    the part's name in braces and inserts nothing. *)
Theorem NumberSyntax_single_suggestion {S : Type} (name value : jsstring)
    (index : nat) (context : option S) :
  match digitsAt value index with
  | c :: run =>
      getSuggestions (NumberSyntax name) value index context =
        [ plain (c :: run) ] /\
      match_ (NumberSyntax (S := S) name) value index =
        Some {| type := full; consumed := length (c :: run) |}
  | [] =>
      getSuggestions (NumberSyntax name) value index context =
        [ {| showAs := "{"%string ++ name ++ "}"%string;
             value := [];
             template := true |} ]
  end.
Proof.
  simpl. unfold StringSyntax_getSuggestions.
  rewrite StringSyntax_match_run, getStringAt_run.
  change (allowedCharRanges NumberSyntax_stringSyntaxOptions) with [NUMBER_CHARS].
  unfold digitsAt.
  destruct (runAt [NUMBER_CHARS] value index) as [|c run].
  - destruct (index =? length value); reflexivity.
  - split; reflexivity.
Qed.

(** ** Suggestions of [FixedLengthNumberSyntax] *)

Lemma allowedBy_digits (c : ascii) : allowedBy [NUMBER_CHARS] c = isDigit c.
Proof. unfold allowedBy, isDigit, matchesRange. simpl. apply orb_false_r. Qed.

Lemma digits_allowed (s : jsstring) :
  Forall (fun c => isDigit c = true) s ->
  Forall (fun c => allowedBy [NUMBER_CHARS] c = true) s.
Proof.
  intros H. eapply Forall_impl; [|exact H].
  intros c Hc. now rewrite allowedBy_digits.
Qed.

Lemma digitsAt_digits (value : jsstring) (index : nat) :
  Forall (fun c => isDigit c = true) (digitsAt value index).
Proof.
  unfold digitsAt, runAt.
  eapply Forall_impl; [|apply takeWhile_all].
  intros c Hc. cbv beta in Hc. now rewrite allowedBy_digits in Hc.
Qed.

Lemma FixedLengthNumberSyntax_match_replaced (requiredLength : nat)
    (value : jsstring) (index : nat) (text : jsstring) :
  index <= length value ->
  Forall (fun c => isDigit c = true) text ->
  length text = requiredLength ->
  FixedLengthNumberSyntax_match requiredLength (replaceFrom value index text) index =
  Some {| type := full; consumed := requiredLength |}.
Proof.
  intros Hi Hd Hl. rewrite FixedLengthNumberSyntax_match_digits.
  unfold digitsAt. rewrite runAt_replaceFrom by (auto using digits_allowed).
  rewrite (proj2 (skipn_replaceFrom value text Hi)). cbv zeta.
  rewrite Hl, (Nat.eqb_refl requiredLength).
  destruct requiredLength; simpl; [|reflexivity].
  now rewrite Nat.add_0_r, Nat.eqb_refl.
Qed.

(** X7. When no more digits are typed than the part takes, every suggestion
    of a [FixedLengthNumberSyntax] that is no template shows what it
    inserts, is made of exactly [requiredLength] digits, begins with the
    digits already typed, and makes the part match in full once inserted at
    its position. *)
Theorem FixedLengthNumberSyntax_suggestions_complete {S : Type}
    (requiredLength : nat) (generator : option (Generator S))
    (value : jsstring) (index : nat) (context : option S) (s : Suggestion) :
  index <= length value ->
  length (digitsAt value index) <= requiredLength ->
  In s (getSuggestions (FixedLengthNumberSyntax requiredLength generator)
          value index context) ->
  template s = false ->
  showAs s = inserted s /\
  length (inserted s) = requiredLength /\
  Forall (fun c => isDigit c = true) (inserted s) /\
  startsWith (inserted s) (digitsAt value index) = true /\
  match_ (FixedLengthNumberSyntax requiredLength generator)
    (replaceFrom value index (inserted s)) index =
  Some {| type := full; consumed := requiredLength |}.
Proof.
  intros Hi Hshort Hin Hplain.
  assert (Hfacts : showAs s = inserted s /\
                   length (inserted s) = requiredLength /\
                   Forall (fun c => isDigit c = true) (inserted s) /\
                   startsWith (inserted s) (digitsAt value index) = true).
  { simpl in Hin. unfold FixedLengthNumberSyntax_getSuggestions in Hin.
    assert (Hcand : In s (map plain
                            (FixedLengthNumberSyntax_candidates requiredLength
                               generator value index context)) ->
                    showAs s = inserted s /\
                    length (inserted s) = requiredLength /\
                    Forall (fun c => isDigit c = true) (inserted s) /\
                    startsWith (inserted s) (digitsAt value index) = true).
    { intros Hl. apply in_map_iff in Hl. destruct Hl as [g [<- Hg]].
      unfold FixedLengthNumberSyntax_candidates in Hg.
      destruct context as [ctx|]; [|destruct Hg].
      destruct generator as [gen|]; [|destruct Hg].
      apply filter_In in Hg. destruct Hg as [_ Hg].
      apply andb_true_iff in Hg. destruct Hg as [Hg Hdigits].
      apply andb_true_iff in Hg. destruct Hg as [Hfit Hlen].
      repeat split.
      - now apply Nat.eqb_eq.
      - now apply only_digits_Forall.
      - unfold getNumberAt in Hfit. now apply fitsExisting_run in Hfit. }
    rewrite getNumberAt_digits in Hin.
    destruct (digitsAt value index) as [|c run] eqn:Er.
    - assert (Hin' : In s
                ({| showAs := "{"%string ++ numberToString requiredLength
                                 ++ "-digit number}"%string;
                    value := [];
                    template := true |}
                 :: map plain
                      (FixedLengthNumberSyntax_candidates requiredLength
                         generator value index context)))
        by (destruct (index =? length value); exact Hin).
      destruct Hin' as [<-|Hin']; [discriminate|].
      destruct (Hcand Hin') as [H1 [H2 [H3 _]]].
      repeat split; try assumption. apply startsWith_nil.
    - destruct (map plain
                  (FixedLengthNumberSyntax_candidates requiredLength generator
                     value index context)) as [|s0 rest] eqn:Ec.
      + destruct Hin as [<-|[]]. unfold inserted. simpl.
        repeat split.
        * unfold repeatChar. rewrite length_app, repeat_length.
          simpl in *. lia.
        * constructor; [|apply Forall_app; split].
          -- pose proof (digitsAt_digits value index) as Hd.
             rewrite Er in Hd. now inversion Hd.
          -- pose proof (digitsAt_digits value index) as Hd.
             rewrite Er in Hd. now inversion Hd.
          -- unfold repeatChar. apply Forall_forall. intros x Hx.
             apply repeat_spec in Hx. now subst x.
        * rewrite Ascii.eqb_refl. apply startsWith_app.
      + apply Hcand. exact Hin. }
  destruct Hfacts as [Hshow [Hlen [Hdig Hstart]]].
  repeat split; try assumption.
  simpl. now apply FixedLengthNumberSyntax_match_replaced.
Qed.

(** The status filter on [status=40] when the codes 200 and 404 were seen:
    only [404] is offered, and inserting it completes the part. *)
Lemma FixedLengthNumberSyntax_suggestions_complete_witness :
  let seen := Some (fun _ _ (_ : unit) =>
                      [ "200"%string : jsstring; "404"%string : jsstring ]) in
  getSuggestions (FixedLengthNumberSyntax 3 seen) "status=40"%string 7 (Some tt) =
    [ plain "404"%string ] /\
  match_ (FixedLengthNumberSyntax 3 seen)
    (replaceFrom "status=40"%string 7 "404"%string) 7 =
  Some {| type := full; consumed := 3 |}.
Proof.
  intros seen. split; [reflexivity|].
  refine (proj2 (proj2 (proj2 (proj2
            (@FixedLengthNumberSyntax_suggestions_complete unit 3 seen
               "status=40"%string 7 (Some tt) (plain "404"%string) _ _ _ _))))).
  - simpl. lia.
  - simpl. lia.
  - simpl. now left.
  - reflexivity.
Defined.

(** ** Suggestions of [StringOptionsSyntax] *)

Lemma agree_sym (a b : jsstring) : agree a b = agree b a.
Proof.
  revert b; induction a as [|x a IH]; intros [|y b]; simpl; try reflexivity.
  now rewrite Ascii.eqb_sym, IH.
Qed.

Lemma existsb_map_swap {A B : Type} (p : B -> bool) (g : A -> B) (l : list A) :
  existsb p (map g l) = existsb (fun a => p (g a)) l.
Proof. induction l as [|a l IH]; simpl; [reflexivity | now rewrite IH]. Qed.

Lemma flat_map_singleton {A B : Type} (h : A -> B) (l : list A) :
  flat_map (fun a => [h a]) l = map h l.
Proof. induction l as [|a l IH]; simpl; [reflexivity | now rewrite IH]. Qed.

Lemma StringOptionsSyntax_getSuggestions_live (options : list jsstring)
    (value : jsstring) (index : nat) :
  StringOptionsSyntax_getSuggestions options value index =
  let live := filter (reachesEndOfInput value index) options in
  map plain
    (if existsb (matchesInFull value index) live
     then filter (matchesInFull value index) live
     else live).
Proof.
  unfold StringOptionsSyntax_getSuggestions. cbv zeta.
  rewrite filter_map_swap, existsb_map_swap. simpl.
  change (fun a : jsstring =>
            match FixedStringSyntax_match a value index with
            | Some m => consumed m + index =? length value
            | None => false
            end) with (reachesEndOfInput value index).
  change (fun a : jsstring =>
            match FixedStringSyntax_match a value index with
            | Some m => isFull m
            | None => false
            end) with (matchesInFull value index).
  destruct (existsb (matchesInFull value index)
              (filter (reachesEndOfInput value index) options)).
  - rewrite filter_map_swap. simpl.
    change (fun a : jsstring =>
              match FixedStringSyntax_match a value index with
              | Some m => isFull m
              | None => false
              end) with (matchesInFull value index).
    rewrite flat_map_concat_map, map_map, <- flat_map_concat_map.
    apply (flat_map_singleton plain).
  - rewrite flat_map_concat_map, map_map, <- flat_map_concat_map.
    apply (flat_map_singleton plain).
Qed.

Lemma beginsUpToCase_length (text option : jsstring) :
  beginsUpToCase text option -> length text <= length option.
Proof.
  unfold beginsUpToCase. intros H.
  apply (f_equal (@length ascii)) in H.
  rewrite length_firstn, !toLowerCase_length in H. lia.
Qed.

Lemma reachesEndOfInput_begins (value : jsstring) (index : nat) (option : jsstring) :
  index <= length value ->
  (reachesEndOfInput value index option = true <->
   beginsUpToCase (skipn index value) option).
Proof.
  intros Hi. unfold reachesEndOfInput, beginsUpToCase.
  rewrite FixedStringSyntax_match_agree, agree_sym. cbv zeta.
  unfold toLowerCase at 2. rewrite firstn_map. fold (toLowerCase (firstn (length (skipn index value)) option)).
  pose proof (agree_whole (skipn index value) option) as Hw.
  rewrite length_skipn in *.
  destruct (agree (skipn index value) option); simpl.
  - rewrite Nat.eqb_eq. split.
    + intros H. symmetry. apply Hw. split; [reflexivity | lia].
    + intros H. symmetry in H. apply Hw in H. lia.
  - split; [discriminate|]. intros H. symmetry in H. apply Hw in H.
    destruct H; discriminate.
Qed.

Lemma matchesInFull_exact (value : jsstring) (index : nat) (option : jsstring) :
  beginsUpToCase (skipn index value) option ->
  (matchesInFull value index option = true <->
   toLowerCase option = toLowerCase (skipn index value)).
Proof.
  intros Hb. pose proof (beginsUpToCase_length Hb) as Hl.
  unfold matchesInFull. rewrite FixedStringSyntax_match_agree. cbv zeta.
  pose proof (agree_whole option (skipn index value)) as Hw.
  rewrite length_skipn in *.
  split.
  - intros H.
    destruct (agree option (skipn index value)); [|discriminate].
    unfold isFull in H. simpl in H.
    destruct (Nat.eqb_spec (Nat.min (length option) (length value - index))
                (length option)) as [E|E]; [|discriminate].
    assert (Hw' : toLowerCase (firstn (length option) (skipn index value)) =
                  toLowerCase option) by (apply Hw; split; [reflexivity | lia]).
    rewrite firstn_all2 in Hw' by (rewrite length_skipn; lia).
    now symmetry.
  - intros H.
    assert (Hlen : length option = length value - index).
    { rewrite <- (length_skipn index value). now apply same_length_up_to_case. }
    assert (Hw' : toLowerCase (firstn (length option) (skipn index value)) =
                  toLowerCase option).
    { rewrite firstn_all2 by (rewrite length_skipn; lia). now symmetry. }
    apply Hw in Hw'. destruct Hw' as [-> _].
    unfold isFull. simpl.
    replace (Nat.min (length option) (length value - index)) with (length option)
      by lia.
    now rewrite Nat.eqb_refl.
Qed.

Lemma exact_begins (text option : jsstring) :
  toLowerCase option = toLowerCase text -> beginsUpToCase text option.
Proof.
  intros H. unfold beginsUpToCase. rewrite H.
  rewrite firstn_all2; [reflexivity|]. rewrite toLowerCase_length. lia.
Qed.

(** X8. With the position inside the input, a [StringOptionsSyntax]
    suggests configured options only, each shown and inserted as
    configured, and exactly these: the options that the rest of the input
    begins, up to case; or, when some option equals the rest of the input
    up to case, just the options that do. *)
Theorem StringOptionsSyntax_suggests_live_options {S : Type}
    (options : list jsstring) (value : jsstring) (index : nat)
    (context : option S) (s : Suggestion) :
  index <= length value ->
  (In s (getSuggestions (StringOptionsSyntax options) value index context) <->
   exists option,
     s = plain option /\ In option options /\
     beginsUpToCase (skipn index value) option /\
     ((exists exact, In exact options /\
                     toLowerCase exact = toLowerCase (skipn index value)) ->
      toLowerCase option = toLowerCase (skipn index value))).
Proof.
  intros Hi. simpl. rewrite StringOptionsSyntax_getSuggestions_live. cbv zeta.
  set (live := filter (reachesEndOfInput value index) options).
  assert (Hlive : forall o, In o live <->
                    In o options /\ beginsUpToCase (skipn index value) o).
  { intros o. unfold live. rewrite filter_In.
    now rewrite (@reachesEndOfInput_begins value index o Hi). }
  assert (Hex : existsb (matchesInFull value index) live = true <->
                exists exact, In exact options /\
                  toLowerCase exact = toLowerCase (skipn index value)).
  { rewrite existsb_exists. split.
    - intros [o [Ho Hf]]. apply Hlive in Ho. destruct Ho as [Ho Hb].
      exists o. split; [assumption|]. now apply (@matchesInFull_exact value index o Hb).
    - intros [o [Ho He]]. exists o.
      pose proof (exact_begins _ _ He) as Hb.
      split; [apply Hlive; now split|]. now apply (@matchesInFull_exact value index o Hb). }
  rewrite in_map_iff.
  destruct (existsb (matchesInFull value index) live) eqn:E.
  - split.
    + intros [o [<- Ho]]. apply filter_In in Ho. destruct Ho as [Ho Hf].
      apply Hlive in Ho. destruct Ho as [Ho Hb].
      exists o. repeat split; try assumption.
      intros _. now apply (@matchesInFull_exact value index o Hb).
    + intros [o [-> [Ho [Hb Himp]]]]. exists o. split; [reflexivity|].
      apply filter_In. split; [apply Hlive; now split|].
      apply (@matchesInFull_exact value index o Hb). apply Himp. now apply Hex.
  - split.
    + intros [o [<- Ho]]. apply Hlive in Ho. destruct Ho as [Ho Hb].
      exists o. repeat split; try assumption.
      intros Hsome. apply Hex in Hsome. discriminate.
    + intros [o [-> [Ho [Hb _]]]]. exists o. split; [reflexivity|].
      apply Hlive. now split.
Qed.

(** The status filter's operators on [status>]: [>=] and [>] both begin
    with what is typed, and [>] equals it, so [>] alone is suggested. *)
Lemma StringOptionsSyntax_suggests_live_options_witness :
  In (plain ">"%string)
     (getSuggestions (StringOptionsSyntax (S := unit) numberOperations)
        "status>"%string 6 None) /\
  ~ In (plain ">="%string)
       (getSuggestions (StringOptionsSyntax (S := unit) numberOperations)
          "status>"%string 6 None).
Proof.
  split.
  - apply (proj2 (@StringOptionsSyntax_suggests_live_options unit numberOperations
                    "status>"%string 6 None (plain ">"%string)
                    ltac:(simpl; lia))).
    exists (">"%string : jsstring). repeat split.
    simpl. do 3 right. now left.
  - intros H.
    apply (proj1 (@StringOptionsSyntax_suggests_live_options unit numberOperations
                    "status>"%string 6 None (plain ">="%string)
                    ltac:(simpl; lia))) in H.
    destruct H as [o [Ho [_ [_ Himp]]]].
    injection Ho as <-.
    assert (Hex : exists exact, In exact numberOperations /\
                    toLowerCase exact =
                    toLowerCase (skipn 6 ("status>"%string : jsstring))).
    { exists (">"%string : jsstring). split; [|reflexivity].
      simpl. do 3 right. now left. }
    specialize (Himp Hex). discriminate.
Defined.

Lemma FixedStringSyntax_match_consumed_le (matcher value : jsstring) (index : nat)
    (m : SyntaxMatch) :
  FixedStringSyntax_match matcher value index = Some m ->
  consumed m <= length value - index /\ consumed m <= length matcher.
Proof.
  rewrite FixedStringSyntax_match_agree. cbv zeta.
  destruct (agree matcher (skipn index value)); [|discriminate].
  intros H; injection H as <-. simpl. lia.
Qed.

(** An option that matches in full and reaches the end of the input is
    what the part answers with. *)
Lemma StringOptionsSyntax_match_whole_option (options : list jsstring)
    (input : jsstring) (index : nat) (option : jsstring) :
  In option options ->
  FixedStringSyntax_match option input index =
    Some {| type := full; consumed := length option |} ->
  length input - index <= length option ->
  StringOptionsSyntax_match options input index =
  Some {| type := full; consumed := length option |}.
Proof.
  intros Ho Hown Hrest.
  rewrite StringOptionsSyntax_match_surviving.
  assert (Hp : In {| type := full; consumed := length option |}
                  (filterDefined (optionResults options input index))).
  { apply filterDefined_In. unfold optionResults. apply in_map_iff.
    exists option. split; [exact Hown | assumption]. }
  assert (Hex : existsb isFull (filterDefined (optionResults options input index))
                = true)
    by (apply existsb_exists; eexists; split; [exact Hp | reflexivity]).
  assert (Hin : In {| type := full; consumed := length option |}
                   (survivingResults options input index)).
  { unfold survivingResults. cbv zeta. rewrite Hex.
    apply filter_In. split; [exact Hp | reflexivity]. }
  assert (Hfull : forall m, In m (survivingResults options input index) ->
                    isFull m = true).
  { intros m Hm. unfold survivingResults in Hm. cbv zeta in Hm.
    rewrite Hex in Hm. apply filter_In in Hm. tauto. }
  destruct (maxBy (survivingResults options input index) consumed) as [m|] eqn:E.
  - apply maxBy_greatest in E. destruct E as [Hm Hmax].
    pose proof (Hmax _ Hin) as Hge. simpl in Hge.
    pose proof (Hfull _ Hm) as Hf.
    apply survivingResults_present in Hm. destruct Hm as [o [_ Hmo]].
    apply FixedStringSyntax_match_consumed_le in Hmo. destruct Hmo as [Hle _].
    destruct m as [[|] c]; [discriminate|]. simpl in *.
    f_equal. f_equal. lia.
  - apply maxBy_none in E. rewrite E in Hin. destruct Hin.
Qed.

Lemma StringOptionsSyntax_match_replaced (options : list jsstring)
    (value : jsstring) (index : nat) (option : jsstring) :
  index <= length value -> In option options ->
  StringOptionsSyntax_match options (replaceFrom value index option) index =
  Some {| type := full; consumed := length option |}.
Proof.
  intros Hi Ho. apply StringOptionsSyntax_match_whole_option.
  - assumption.
  - now apply FixedStringSyntax_match_replaced.
  - rewrite (proj2 (skipn_replaceFrom value option Hi)). lia.
Qed.

(** X9. Whatever a [StringOptionsSyntax] suggests is no template and is one
    of its options, and once it is inserted at the part's position the part
    matches it in full and to its whole length, even when a shorter option
    matches in full as well. *)
Theorem StringOptionsSyntax_suggestion_completes {S : Type}
    (options : list jsstring) (value : jsstring) (index : nat)
    (context : option S) (s : Suggestion) :
  index <= length value ->
  In s (getSuggestions (StringOptionsSyntax options) value index context) ->
  template s = false /\
  In (inserted s) options /\
  match_ (StringOptionsSyntax (S := S) options)
    (replaceFrom value index (inserted s)) index =
  Some {| type := full; consumed := length (inserted s) |}.
Proof.
  intros Hi Hin. simpl in Hin.
  rewrite StringOptionsSyntax_getSuggestions_live in Hin. cbv zeta in Hin.
  apply in_map_iff in Hin. destruct Hin as [o [<- Ho]].
  assert (Hopt : In o options).
  { destruct (existsb _ _) in Ho.
    - apply filter_In in Ho. destruct Ho as [Ho _].
      apply filter_In in Ho. tauto.
    - apply filter_In in Ho. tauto. }
  repeat split; [assumption|].
  simpl. now apply StringOptionsSyntax_match_replaced.
Qed.

(** The status filter's operators on [status!]: inserting [!=] over the
    typed [!] gives a full match of two characters. *)
Lemma StringOptionsSyntax_suggestion_completes_witness :
  match_ (StringOptionsSyntax (S := unit) numberOperations)
    (replaceFrom "status!"%string 6 "!="%string) 6 =
  Some {| type := full; consumed := 2 |}.
Proof.
  refine (proj2 (proj2
            (@StringOptionsSyntax_suggestion_completes unit numberOperations
               "status!"%string 6 None (plain "!="%string) _ _))).
  - simpl. lia.
  - simpl. now left.
Defined.

(** ** Numbers parsed by [NumberSyntax] and [FixedLengthNumberSyntax] *)

Lemma parseDigits_bound (s : jsstring) :
  Forall (fun c => isDigit c = true) s ->
  forall acc,
    (parseDigits acc s < (acc + 1) * 10 ^ N.of_nat (length s))%N.
Proof.
  induction 1 as [|c s Hc _ IH]; intros acc.
  - simpl. lia.
  - cbn [parseDigits length]. rewrite Hc.
    specialize (IH (acc * 10 + N.of_nat (charCode c - 48))%N).
    unfold isDigit in Hc. apply andb_true_iff in Hc. destruct Hc as [H1 H2].
    apply Nat.leb_le in H1, H2.
    rewrite Nat2N.inj_succ, N.pow_succ_r'.
    assert (Hd : (N.of_nat (charCode c - 48) <= 9)%N) by lia.
    assert (Hp : (0 < 10 ^ N.of_nat (length s))%N)
      by (apply N.neq_0_lt_0, N.pow_nonzero; discriminate).
    nia.
Qed.

Lemma parseInt10_digits (s : jsstring) :
  Forall (fun c => isDigit c = true) s ->
  s <> [] ->
  exists n, parseInt10 s = Num n /\ (n < 10 ^ N.of_nat (length s))%N.
Proof.
  intros Hd Hne. destruct s as [|c s]; [congruence|].
  unfold parseInt10.
  replace (isDigit c) with true by (symmetry; now inversion Hd).
  exists (parseDigits 0 (c :: s)). split; [reflexivity|].
  pose proof (parseDigits_bound Hd 0) as H. lia.
Qed.


Lemma FixedLengthNumberSyntax_parsed_text (requiredLength : nat)
    (value : jsstring) (index : nat) (s : jsstring) :
  getParsedValue (FixedLengthNumberSyntax_match requiredLength) value index =
    Returns s ->
  s = digitsAt value index /\ length s = requiredLength.
Proof.
  unfold getParsedValue. rewrite FixedLengthNumberSyntax_match_digits. cbv zeta.
  destruct ((length (digitsAt value index) =? 0) &&
            negb (index =? length value)); [discriminate|].
  destruct (Nat.eqb_spec (length (digitsAt value index)) requiredLength) as [E|E].
  - simpl. intros H; injection H as <-.
    rewrite slice_from. unfold digitsAt, runAt. rewrite takeWhile_prefix.
    split; [reflexivity | exact E].
  - destruct (length (digitsAt value index) <? requiredLength); discriminate.
Qed.





(** ** Reading back a number written in decimal *)








(** ** A [StringSyntax] without [allowedChars] *)

Lemma default_range_allows (c : ascii) : allowedBy [(0, 255)] c = true.
Proof.
  unfold allowedBy, matchesRange, charCode. simpl.
  pose proof (nat_ascii_bounded c) as H.
  rewrite orb_false_r. apply Nat.leb_le. lia.
Qed.

Lemma runAt_default (value : jsstring) (index : nat) :
  runAt [(0, 255)] value index = skipn index value.
Proof.
  unfold runAt. apply takeWhile_whole.
  apply Forall_forall. intros c _. apply default_range_allows.
Qed.

(** X13. A [StringSyntax] configured without [allowedChars] takes the whole
    rest of the input, whatever it holds: from a position inside the input
    its match consumes everything up to the end, and is full as soon as
    there is a character left or the part allows the empty string; and
    when it is full, [parse] returns that rest unchanged. *)
Theorem StringSyntax_default_takes_rest {S : Type} (templateText : jsstring)
    (options : StringSyntaxOptions S) (value : jsstring) (index : nat) :
  allowedChars options = None ->
  index <= length value ->
  match_ (StringSyntax templateText options) value index =
    Some {| type := if (0 <? length value - index) || allowEmpty options
                    then full else partial;
            consumed := length value - index |} /\
  (index < length value \/ allowEmpty options = true ->
   parse (StringSyntax templateText options) value index =
   Returns (VString (skipn index value))).
Proof.
  intros Hnone Hi.
  assert (Hm : StringSyntax_match options value index =
               Some {| type := if (0 <? length value - index) || allowEmpty options
                               then full else partial;
                       consumed := length value - index |}).
  { rewrite StringSyntax_match_run. unfold allowedCharRanges. rewrite Hnone.
    rewrite runAt_default.
    destruct (skipn index value) as [|c rest] eqn:E.
    - assert (Hl : length value - index = 0)
        by (rewrite <- (length_skipn index value), E; reflexivity).
      rewrite Hl. simpl.
      replace (index =? length value) with true
        by (symmetry; apply Nat.eqb_eq; lia).
      reflexivity.
    - assert (Hl : length value - index = Datatypes.S (length rest))
        by (rewrite <- (length_skipn index value), E; reflexivity).
      rewrite Hl. reflexivity. }
  split; [exact Hm|].
  intros Hfull. simpl. unfold StringSyntax_parse, getParsedValue.
  rewrite Hm. unfold isFull. simpl.
  replace ((0 <? length value - index) || allowEmpty options) with true.
  - simpl. rewrite slice_from.
    rewrite firstn_all2 by (rewrite length_skipn; lia). reflexivity.
  - symmetry. apply orb_true_iff.
    destruct Hfull as [H|H]; [left; apply Nat.ltb_lt; lia | now right].
Qed.

(** The path filter's operand in [path^=/api?x=1&y]. *)
Lemma StringSyntax_default_takes_rest_witness :
  parse (StringSyntax (S := unit) "path"%string defaultOptions)
    "path^=/api?x=1&y"%string 6 =
  Returns (VString "/api?x=1&y"%string).
Proof.
  refine (proj2 (@StringSyntax_default_takes_rest unit "path"%string
                   defaultOptions "path^=/api?x=1&y"%string 6 eq_refl _) _).
  - simpl. lia.
  - left. simpl. lia.
Defined.

(** ** The cursor stays inside the input *)

#[global] Instance FixedStringSyntax_in_bounds {S : Type} (matcher : jsstring) :
  InBoundsPart (FixedStringSyntax (S := S) matcher).
Proof.
  intros value index m Hi Hm. simpl in Hm.
  apply FixedStringSyntax_match_consumed_le in Hm. lia.
Qed.

Lemma StringSyntax_match_in_bounds {S : Type} (options : StringSyntaxOptions S)
    (value : jsstring) (index : nat) (m : SyntaxMatch) :
  index <= length value ->
  StringSyntax_match options value index = Some m ->
  index + consumed m <= length value.
Proof.
  intros Hi. rewrite StringSyntax_match_run.
  pose proof (runAt_in_bounds (allowedCharRanges options) value index) as Hl.
  destruct (runAt (allowedCharRanges options) value index) as [|c run].
  - destruct (index =? length value); [|discriminate].
    intros H; injection H as <-. simpl. lia.
  - intros H; injection H as <-. simpl in *. lia.
Qed.

#[global] Instance StringSyntax_in_bounds {S : Type} (templateText : jsstring)
    (options : StringSyntaxOptions S) :
  InBoundsPart (StringSyntax templateText options).
Proof. intros value index m. apply StringSyntax_match_in_bounds. Qed.

#[global] Instance NumberSyntax_in_bounds {S : Type} (name : jsstring) :
  InBoundsPart (NumberSyntax (S := S) name).
Proof. intros value index m. apply StringSyntax_match_in_bounds. Qed.

#[global] Instance FixedLengthNumberSyntax_in_bounds {S : Type}
    (requiredLength : nat) (generator : option (Generator S)) :
  InBoundsPart (FixedLengthNumberSyntax requiredLength generator).
Proof.
  intros value index m Hi. simpl.
  rewrite FixedLengthNumberSyntax_match_digits. cbv zeta.
  pose proof (runAt_in_bounds [NUMBER_CHARS] value index) as Hl.
  fold (digitsAt value index) in Hl.
  destruct ((length (digitsAt value index) =? 0) && negb (index =? length value));
    [discriminate|].
  destruct (length (digitsAt value index) =? requiredLength).
  - intros H; injection H as <-. simpl. lia.
  - destruct (length (digitsAt value index) <? requiredLength); [|discriminate].
    intros H; injection H as <-. simpl. lia.
Qed.

#[global] Instance StringOptionsSyntax_in_bounds {S : Type}
    (options : list jsstring) :
  InBoundsPart (StringOptionsSyntax (S := S) options).
Proof.
  intros value index m Hi. simpl.
  rewrite StringOptionsSyntax_match_surviving. intros Hm.
  apply maxBy_greatest in Hm. destruct Hm as [Hin _].
  apply survivingResults_present in Hin. destruct Hin as [o [_ Ho]].
  apply FixedStringSyntax_match_consumed_le in Ho. lia.
Qed.

(** X14. Over a definition whose parts end their matches inside the input,
    as those of the five classes do, neither composition loop moves the
    cursor backwards or past the end of the input. *)
Theorem cursor_stays_in_input {T : Type} (syntax : list (SyntaxPart T))
    (value : jsstring) (index : nat) (parts : list PartValue)
    (final : nat) (out : list PartValue) :
  Forall InBoundsPart syntax ->
  index <= length value ->
  parseFilter_loop syntax value index parts = Returns (final, out) \/
  tryParseFilter_loop syntax value index parts = Returns (final, out) ->
  index <= final <= length value.
Proof.
  intros Hb. revert index parts.
  induction Hb as [|part syntax Hpart _ IH]; intros index parts Hi [H|H];
    simpl in H.
  - injection H as <- _. lia.
  - injection H as <- _. lia.
  - destruct (parse part value index) as [parsed|e]; simpl in H; [|discriminate].
    destruct (match_ part value index) as [m|] eqn:Em; [|discriminate].
    pose proof (Hpart value index m Hi Em) as Hm.
    assert (index + consumed m <= final <= length value)
      by (eapply IH; [exact Hm | left; exact H]).
    lia.
  - destruct (match_ part value index) as [m|] eqn:Em.
    + destruct (isFull m).
      * destruct (parse part value index) as [parsed|e]; simpl in H;
          [|discriminate].
        pose proof (Hpart value index m Hi Em) as Hm.
        assert (index + consumed m <= final <= length value)
          by (eapply IH; [exact Hm | right; exact H]).
        lia.
      * injection H as <- _. lia.
    + injection H as <- _. lia.
Qed.

(** The status filter on [status>=404xyz]: the loop stops at 11 of 14. *)
Lemma cursor_stays_in_input_witness : 0 <= 11 <= 14.
Proof.
  apply (@cursor_stays_in_input unit
           (filterSyntax (StatusFilter (fun _ _ _ => [])))
           "status>=404xyz"%string 0 [] 11
           [ VString "status"%string; VString ">="%string; VNumber (Num 404) ]).
  - simpl. in_bounds_syntax.
  - simpl. lia.
  - left. reflexivity.
Defined.

(** ** The two composition modes *)

(** X15. Over a definition made of lawful parts, [parseFilter] returns the
    values [values] exactly when [tryParseFilter] returns them and they are
    as many as the definition has parts. *)
Theorem parseFilter_iff_tryParseFilter_complete {T : Type}
    (filterClass : FilterClass T) (value : jsstring) (values : list PartValue) :
  Forall LawfulPart (filterSyntax filterClass) ->
  (parseFilter filterClass value = Returns values <->
   tryParseFilter filterClass value = Returns values /\
   length values = length (filterSyntax filterClass)).
Proof.
  intros Hlaw. split.
  - intros H. apply parseFilter_returns_loop in H. destruct H as [final H].
    split.
    + unfold tryParseFilter.
      now rewrite (parseFilter_loop_tryParseFilter_loop value Hlaw _ _ H).
    + now destruct (parseFilter_loop_returns value Hlaw _ _ H) as [_ Hl].
  - intros [Ht Hl].
    destruct (tryParseFilter_loop_prefix value Hlaw 0 [])
      as [n [final [out [Hloop [Hn [Hp _]]]]]].
    unfold tryParseFilter in Ht. rewrite Hloop in Ht. simpl in Ht.
    injection Ht as ->.
    assert (Hlawn : Forall LawfulPart (firstn n (filterSyntax filterClass))).
    { apply Forall_forall. intros part Hin.
      rewrite Forall_forall in Hlaw. apply Hlaw.
      rewrite <- (firstn_skipn n (filterSyntax filterClass)).
      apply in_or_app. now left. }
    destruct (parseFilter_loop_returns value Hlawn _ _ Hp) as [_ Hlen].
    simpl in Hlen. rewrite length_firstn in Hlen.
    assert (n = length (filterSyntax filterClass)) by lia. subst n.
    rewrite firstn_all in Hp.
    apply parseFilter_returns_loop. eauto.
Qed.

(** The port filter on [port=443]. *)
Lemma parseFilter_iff_tryParseFilter_complete_witness :
  parseFilter (PortFilter unit) "port=443"%string =
  Returns [ VString "port"%string; VString "="%string; VNumber (Num 443) ].
Proof.
  apply (proj2 (@parseFilter_iff_tryParseFilter_complete unit (PortFilter unit)
                  "port=443"%string
                  [ VString "port"%string; VString "="%string; VNumber (Num 443) ]
                  ltac:(simpl; lawful_syntax))).
  split; reflexivity.
Defined.

(** X16. Each of the five classes ends its matches inside the input: a
    match found at a position inside the input consumes no more than the
    characters left. *)
Theorem match_ends_inside_input {S : Type} (value : jsstring) (index : nat)
    (m : SyntaxMatch) :
  index <= length value ->
  (forall matcher,
     match_ (FixedStringSyntax (S := S) matcher) value index = Some m ->
     index + consumed m <= length value) /\
  (forall templateText options,
     match_ (StringSyntax (S := S) templateText options) value index = Some m ->
     index + consumed m <= length value) /\
  (forall name,
     match_ (NumberSyntax (S := S) name) value index = Some m ->
     index + consumed m <= length value) /\
  (forall requiredLength generator,
     match_ (FixedLengthNumberSyntax (S := S) requiredLength generator)
       value index = Some m ->
     index + consumed m <= length value) /\
  (forall options,
     match_ (StringOptionsSyntax (S := S) options) value index = Some m ->
     index + consumed m <= length value).
Proof.
  intros Hi. repeat split; intros.
  - eapply (FixedStringSyntax_in_bounds (S := S)); eassumption.
  - eapply (StringSyntax_in_bounds (S := S)); eassumption.
  - eapply (NumberSyntax_in_bounds (S := S)); eassumption.
  - eapply (FixedLengthNumberSyntax_in_bounds (S := S)); eassumption.
  - eapply (StringOptionsSyntax_in_bounds (S := S)); eassumption.
Qed.

(** The hostname operand of [hostname=api.x/y] stops before the slash. *)
Lemma match_ends_inside_input_witness : 9 + 5 <= 16.
Proof.
  refine (proj1 (proj2 (@match_ends_inside_input unit
            "hostname=api.x/y"%string 9 {| type := full; consumed := 5 |} _))
            "hostname"%string
            {| allowEmpty := false;
               allowedChars := Some [ (97, 122); (65, 90); (48, 57);
                                      (45, 45); (46, 46) ];
               suggestionGenerator := None |} eq_refl).
  simpl. lia.
Defined.

Lemma tryParseFilter_loop_extends {T : Type} (syntax : list (SyntaxPart T))
    (value : jsstring) :
  forall index parts final out,
    tryParseFilter_loop syntax value index parts = Returns (final, out) ->
    exists more, out = parts ++ more.
Proof.
  induction syntax as [|part syntax IH]; intros index parts final out; simpl.
  - intros H; injection H as _ <-. exists []. now rewrite app_nil_r.
  - destruct (match_ part value index) as [m|].
    + destruct (isFull m).
      * destruct (parse part value index) as [parsed|e]; simpl; [|discriminate].
        intros H. apply IH in H. destruct H as [more ->].
        exists (parsed :: more). now rewrite <- app_assoc.
      * intros H; injection H as _ <-. exists []. now rewrite app_nil_r.
    + intros H; injection H as _ <-. exists []. now rewrite app_nil_r.
Qed.

Lemma tryParseFilter_loop_firstn {T : Type} (syntax : list (SyntaxPart T))
    (value : jsstring) :
  forall k index parts final out,
    tryParseFilter_loop syntax value index parts = Returns (final, out) ->
    exists final',
      tryParseFilter_loop (firstn k syntax) value index parts =
      Returns (final', firstn (length parts + k) out).
Proof.
  induction syntax as [|part syntax IH]; intros k index parts final out H.
  - rewrite firstn_nil. simpl in *. injection H as _ <-.
    exists index. now rewrite firstn_all2 by lia.
  - destruct k as [|k].
    + simpl firstn. simpl.
      destruct (tryParseFilter_loop_extends _ _ _ _ H) as [more ->].
      exists index. rewrite Nat.add_0_r.
      now rewrite firstn_app, firstn_all, Nat.sub_diag, app_nil_r.
    + simpl in *.
      destruct (match_ part value index) as [m|].
      * destruct (isFull m).
        -- destruct (parse part value index) as [parsed|e]; simpl in *;
             [|discriminate].
           destruct (IH k _ _ _ _ H) as [final' Hk].
           exists final'. rewrite Hk. f_equal. f_equal. f_equal.
           rewrite length_app. simpl. lia.
        -- injection H as _ <-. exists index.
           now rewrite firstn_all2 by lia.
      * injection H as _ <-. exists index.
        now rewrite firstn_all2 by lia.
Qed.

(** X17. What [tryParseFilter] returns for a definition cut down to its
    first [k] parts is the first [k] of the values it returns for the whole
    definition. *)
Theorem tryParseFilter_of_prefix {T : Type} (filterClass : FilterClass T)
    (value : jsstring) (values : list PartValue) (k : nat) :
  tryParseFilter filterClass value = Returns values ->
  tryParseFilter {| filterSyntax := firstn k (filterSyntax filterClass) |} value =
  Returns (firstn k values).
Proof.
  unfold tryParseFilter. simpl.
  destruct (tryParseFilter_loop (filterSyntax filterClass) value 0 [])
    as [[final out]|e] eqn:E; simpl; [|discriminate].
  intros H; injection H as <-.
  destruct (tryParseFilter_loop_firstn _ _ k _ _ E) as [final' ->].
  reflexivity.
Qed.

(** The status filter on [status>=404], cut down to keyword and operator. *)
Lemma tryParseFilter_of_prefix_witness :
  tryParseFilter
    {| filterSyntax :=
         firstn 2 (filterSyntax (StatusFilter (fun _ _ (_ : unit) => []))) |}
    "status>=404"%string =
  Returns [ VString "status"%string; VString ">="%string ].
Proof.
  apply (@tryParseFilter_of_prefix unit (StatusFilter (fun _ _ _ => []))
           "status>=404"%string
           [ VString "status"%string; VString ">="%string; VNumber (Num 404) ] 2).
  reflexivity.
Defined.

(** ** What [StringOptionsSyntax.parse] returns *)

Lemma isUpperCode_bound (n : nat) : isUpperCode n = true -> 65 <= n <= 222.
Proof.
  unfold isUpperCode. intros H.
  repeat (apply orb_true_iff in H; destruct H as [H|H]);
    apply andb_true_iff in H; destruct H as [H1 H2];
    apply Nat.leb_le in H1, H2; lia.
Qed.

Lemma toLowerCaseChar_uncased (c x : ascii) :
  isCased c = false ->
  toLowerCaseChar x = toLowerCaseChar c -> x = c.
Proof.
  unfold isCased. intros Hc. apply orb_false_iff in Hc. destruct Hc as [Hup Hlow].
  unfold toLowerCaseChar. rewrite Hup.
  destruct (isUpperCode (charCode x)) eqn:Ex; [|trivial].
  intros H. exfalso.
  apply isUpperCode_bound in Ex as Hb.
  assert (Hcode : charCode c = charCode x + 32).
  { rewrite <- H. unfold charCode. apply nat_ascii_embedding. unfold charCode in Hb. lia. }
  rewrite Hcode in Hlow.
  replace (charCode x + 32 - 32) with (charCode x) in Hlow by lia.
  congruence.
Qed.

Lemma toLowerCase_uncased (s option : jsstring) :
  Forall (fun c => isCased c = false) option ->
  toLowerCase s = toLowerCase option -> s = option.
Proof.
  intros Hu. revert s. induction Hu as [|c option Hc _ IH]; intros [|x s] H;
    simpl in H; try discriminate; [reflexivity|].
  injection H as Hx Hs. f_equal; [|now apply IH].
  now apply (toLowerCaseChar_uncased c x).
Qed.

Lemma StringOptionsSyntax_parse_option {S : Type} (options : list jsstring)
    (value : jsstring) (index : nat) (parsed : PartValue) :
  parse (StringOptionsSyntax (S := S) options) value index = Returns parsed ->
  exists s option,
    parsed = VString s /\ In option options /\
    s = slice value index (index + length option) /\
    toLowerCase s = toLowerCase option.
Proof.
  simpl.
  destruct (getParsedValue (StringOptionsSyntax_match options) value index)
    as [s|e] eqn:E; [|discriminate].
  simpl. intros H; injection H as <-.
  destruct (getParsedValue_returns _ _ _ E) as [c Hc].
  rewrite (getParsedValue_full _ _ _ Hc) in E. injection E as <-.
  rewrite StringOptionsSyntax_match_surviving in Hc.
  apply maxBy_greatest in Hc. destruct Hc as [Hin _].
  apply survivingResults_present in Hin. destruct Hin as [o [Ho Hm]].
  rewrite FixedStringSyntax_match_agree in Hm. cbv zeta in Hm.
  destruct (agree o (skipn index value)) eqn:Ha; [|discriminate].
  destruct (Nat.eqb_spec (Nat.min (length o) (length value - index)) (length o))
    as [El|El]; [|discriminate].
  injection Hm as <-. rewrite El.
  exists (slice value index (index + length o)), o.
  repeat split; [assumption|].
  rewrite slice_from. apply agree_whole. split; [assumption|].
  rewrite length_skipn. lia.
Qed.

(** X18. Whenever [StringOptionsSyntax.parse] returns, it returns a piece
    of the input that equals one of the options up to case, and it returns
    that option itself when the option holds no character that comes in two
    cases. *)
Theorem StringOptionsSyntax_parse_is_option {S : Type} (options : list jsstring)
    (value : jsstring) (index : nat) (parsed : PartValue) :
  parse (StringOptionsSyntax (S := S) options) value index = Returns parsed ->
  exists s option,
    parsed = VString s /\ In option options /\
    s = slice value index (index + length option) /\
    toLowerCase s = toLowerCase option /\
    (Forall (fun c => isCased c = false) option -> s = option).
Proof.
  intros H. apply StringOptionsSyntax_parse_option in H.
  destruct H as [s [o [Hp [Ho [Hs Hl]]]]].
  exists s, o. repeat split; try assumption.
  intros Hu. now apply toLowerCase_uncased.
Qed.

(** The protocol filter's operand typed as [Https]. *)
Lemma StringOptionsSyntax_parse_is_option_witness :
  exists s option,
    VString "Https"%string = VString s /\
    In option [ "http"%string : jsstring; "https"%string : jsstring ] /\
    s = slice "protocol=Https"%string 9 (9 + length option) /\
    toLowerCase s = toLowerCase option /\
    (Forall (fun c => isCased c = false) option -> s = option).
Proof.
  apply (@StringOptionsSyntax_parse_is_option unit
           [ "http"%string : jsstring; "https"%string : jsstring ]
           "protocol=Https"%string 9).
  reflexivity.
Defined.

Lemma operators_uncased :
  Forall (Forall (fun c => isCased c = false)) numberOperations /\
  Forall (Forall (fun c => isCased c = false)) stringOperations.
Proof. split; repeat constructor. Qed.

(** X19. The operator that the operator part of a filter parses to is one
    of the listed operators exactly, whatever the input, and each of the
    tables read with it has an entry for it: [numberOperations] and
    [operationDescriptions] for the numeric operators, [stringOperations]
    and [operationDescriptions] for the string operators. *)
Theorem parsed_operator_has_entries {S : Type} (value : jsstring) (index : nat)
    (parsed : PartValue) :
  (parse (StringOptionsSyntax (S := S) numberOperations) value index =
     Returns parsed ->
   exists op predicate description,
     parsed = VString op /\ In op numberOperations /\
     property numberOperationsTable op = Some predicate /\
     property operationDescriptions op = Some description) /\
  (parse (StringOptionsSyntax (S := S) stringOperations) value index =
     Returns parsed ->
   exists op predicate description,
     parsed = VString op /\ In op stringOperations /\
     property stringOperationsTable op = Some predicate /\
     property operationDescriptions op = Some description).
Proof.
  destruct operators_uncased as [Hn Hs].
  split; intros H; apply StringOptionsSyntax_parse_option in H;
    destruct H as [s [o [Hp [Ho [_ Hl]]]]].
  - assert (s = o).
    { apply toLowerCase_uncased; [|assumption].
      rewrite Forall_forall in Hn. now apply Hn. }
    subst s. simpl in Ho.
    repeat (destruct Ho as [<-|Ho];
            [do 3 eexists; repeat split; [exact Hp | simpl; tauto | ..];
             reflexivity|]).
    destruct Ho.
  - assert (s = o).
    { apply toLowerCase_uncased; [|assumption].
      rewrite Forall_forall in Hs. now apply Hs. }
    subst s. simpl in Ho.
    repeat (destruct Ho as [<-|Ho];
            [do 3 eexists; repeat split; [exact Hp | simpl; tauto | ..];
             reflexivity|]).
    destruct Ho.
Qed.

(** The hostname filter's operator in [hostname^=api]. *)
Lemma parsed_operator_has_entries_witness :
  exists op predicate description,
    VString "^="%string = VString op /\ In op stringOperations /\
    property stringOperationsTable op = Some predicate /\
    property operationDescriptions op = Some description.
Proof.
  apply (proj2 (@parsed_operator_has_entries unit "hostname^=api"%string 8
                  (VString "^="%string))).
  reflexivity.
Defined.

(** ** Filter constructors *)

Lemma parseFilter_loop_cons_returns {T : Type} (part : SyntaxPart T)
    (syntax : list (SyntaxPart T)) (value : jsstring) (index : nat)
    (parts : list PartValue) (state : nat * list PartValue) :
  parseFilter_loop (part :: syntax) value index parts = Returns state ->
  exists parsed m,
    parse part value index = Returns parsed /\
    match_ part value index = Some m /\
    parseFilter_loop syntax value (index + consumed m) (parts ++ [parsed]) =
      Returns state.
Proof.
  cbn [parseFilter_loop].
  destruct (parse part value index) as [parsed|e]; [|discriminate].
  cbn [bind].
  destruct (match_ part value index) as [m|]; [|discriminate].
  intros H. now exists parsed, m.
Qed.

(** The values of a definition of three parts. *)
Lemma parseFilter_three {T : Type} (first second third : SyntaxPart T)
    (value : jsstring) (values : list PartValue) :
  parseFilter {| filterSyntax := [ first; second; third ] |} value =
    Returns values ->
  exists v1 v2 v3 i2 i3,
    values = [ v1; v2; v3 ] /\
    parse first value 0 = Returns v1 /\
    parse second value i2 = Returns v2 /\
    parse third value i3 = Returns v3.
Proof.
  intros H. apply parseFilter_returns_loop in H. destruct H as [final H].
  cbn [filterSyntax] in H.
  apply parseFilter_loop_cons_returns in H.
  destruct H as [v1 [m1 [H1 [_ H]]]].
  apply parseFilter_loop_cons_returns in H.
  destruct H as [v2 [m2 [H2 [_ H]]]].
  apply parseFilter_loop_cons_returns in H.
  destruct H as [v3 [m3 [H3 [_ H]]]].
  cbn [parseFilter_loop] in H. injection H as _ <-.
  exists v1, v2, v3, (0 + consumed m1), (0 + consumed m1 + consumed m2).
  repeat split; assumption.
Qed.

Lemma FixedLengthNumberSyntax_parse_digits {S : Type} (requiredLength : nat)
    (generator : option (Generator S)) (value : jsstring) (index : nat)
    (parsed : PartValue) :
  0 < requiredLength ->
  parse (FixedLengthNumberSyntax requiredLength generator) value index =
    Returns parsed ->
  exists n, parsed = VNumber (Num n) /\ (n < 10 ^ N.of_nat requiredLength)%N.
Proof.
  intros Hpos. simpl.
  destruct (getParsedValue (FixedLengthNumberSyntax_match requiredLength)
              value index) as [s|e] eqn:E; [|discriminate].
  apply FixedLengthNumberSyntax_parsed_text in E. destruct E as [-> Hl].
  simpl. intros H; injection H as <-.
  destruct (@parseInt10_digits (digitsAt value index)) as [n [Hn Hb]].
  - apply digitsAt_digits.
  - intros Hnil. rewrite Hnil in Hl. simpl in Hl. lia.
  - exists n. rewrite Hn, <- Hl. split; [reflexivity | exact Hb].
Qed.

Lemma parsed_operator_entries_number {S : Type} (value : jsstring) (index : nat)
    (parsed : PartValue) :
  parse (StringOptionsSyntax (S := S) numberOperations) value index =
    Returns parsed ->
  exists op predicate,
    parsed = VString op /\ In op numberOperations /\
    property numberOperationsTable op = Some predicate.
Proof.
  intros H. apply StringOptionsSyntax_parse_option in H.
  destruct H as [s [o [Hp [Ho [_ Hl]]]]].
  assert (s = o).
  { apply toLowerCase_uncased; [|assumption].
    pose proof (proj1 operators_uncased) as Hn.
    rewrite Forall_forall in Hn. now apply Hn. }
  subst s. simpl in Ho.
  repeat (destruct Ho as [<-|Ho];
          [do 2 eexists; repeat split; [exact Hp | simpl; tauto | reflexivity]|]).
  destruct Ho.
Qed.

(** X20. Whenever the constructor of [StatusFilter] returns, the filter
    keeps the text it was given, its operator is one of the six numeric
    operators, its predicate is the entry of [numberOperations] for that
    operator and so is defined, and its status is a number below 1000. *)
Theorem StatusFilter_constructor_fields {Events : Type}
    (statusCodes : Generator Events) (filter : jsstring)
    (fields : StatusFilterFields) :
  StatusFilter_constructor statusCodes filter = Returns fields ->
  StatusFilter_filterString fields = filter /\
  exists op predicate n,
    In op numberOperations /\
    StatusFilter_op fields = Some (VString op) /\
    property numberOperationsTable op = Some predicate /\
    StatusFilter_predicate fields = Some predicate /\
    StatusFilter_status fields = Some (VNumber (Num n)) /\
    (n < 1000)%N.
Proof.
  unfold StatusFilter_constructor.
  destruct (parseFilter (StatusFilter statusCodes) filter) as [values|e] eqn:E;
    [|discriminate].
  cbn [bind]. intros H; injection H as <-.
  cbn [StatusFilter_filterString StatusFilter_op StatusFilter_status
       StatusFilter_predicate].
  split; [reflexivity|].
  unfold StatusFilter in E. apply parseFilter_three in E.
  destruct E as [v1 [v2 [v3 [i2 [i3 [-> [_ [H2 H3]]]]]]]].
  destruct (@parsed_operator_entries_number Events filter i2 v2 H2)
    as [op [predicate [Hv2 [Hop Hp]]]].
  apply FixedLengthNumberSyntax_parse_digits in H3; [|lia].
  destruct H3 as [n [-> Hn]]. subst v2.
  exists op, predicate, n. cbn [nth_error]. rewrite Hp.
  repeat split; assumption.
Qed.

(** The status filter built from [status>=404]. *)
Lemma StatusFilter_constructor_fields_witness :
  exists op predicate n,
    In op numberOperations /\
    Some (VString (">="%string : jsstring)) = Some (VString op) /\
    property numberOperationsTable op = Some predicate /\
    property numberOperationsTable ">="%string = Some predicate /\
    Some (VNumber (Num 404)) = Some (VNumber (Num n)) /\
    (n < 1000)%N.
Proof.
  apply (proj2 (@StatusFilter_constructor_fields unit (fun _ _ _ => [])
                  "status>=404"%string
                  {| StatusFilter_filterString := "status>=404"%string;
                     StatusFilter_op := Some (VString ">="%string);
                     StatusFilter_status := Some (VNumber (Num 404));
                     StatusFilter_predicate :=
                       property numberOperationsTable ">="%string |}
                  eq_refl)).
Defined.

(** X21. Whenever the constructor of [ProtocolFilter] returns, the filter
    keeps the text it was given and its expected protocol is [http] or
    [https] in lower case, however the protocol was typed. *)
Theorem ProtocolFilter_constructor_fields (Events : Type) (filter : jsstring)
    (fields : ProtocolFilterFields) :
  ProtocolFilter_constructor Events filter = Returns fields ->
  ProtocolFilter_filterString fields = filter /\
  (ProtocolFilter_expectedProtocol fields = ("http"%string : jsstring) \/
   ProtocolFilter_expectedProtocol fields = ("https"%string : jsstring)).
Proof.
  unfold ProtocolFilter_constructor.
  destruct (parseFilter (ProtocolFilter Events) filter) as [values|e] eqn:E;
    [|discriminate].
  cbn [bind].
  unfold ProtocolFilter in E. apply parseFilter_three in E.
  destruct E as [v1 [v2 [v3 [i2 [i3 [-> [_ [_ H3]]]]]]]].
  apply StringOptionsSyntax_parse_option in H3.
  destruct H3 as [s [o [-> [Ho [_ Hl]]]]].
  cbn [nth_error]. intros H; injection H as <-.
  cbn [ProtocolFilter_filterString ProtocolFilter_expectedProtocol].
  split; [reflexivity|]. rewrite Hl.
  destruct Ho as [<-|[<-|[]]]; [left | right]; reflexivity.
Qed.

(** The protocol filter built from [protocol=HTTPS]. *)
Lemma ProtocolFilter_constructor_fields_witness :
  toLowerCase "HTTPS"%string = ("http"%string : jsstring) \/
  toLowerCase "HTTPS"%string = ("https"%string : jsstring).
Proof.
  apply (proj2 (@ProtocolFilter_constructor_fields unit "protocol=HTTPS"%string
                  {| ProtocolFilter_filterString := "protocol=HTTPS"%string;
                     ProtocolFilter_expectedProtocol :=
                       toLowerCase "HTTPS"%string |}
                  eq_refl)).
Defined.

(** X22. Whenever the constructor of [HttpVersionFilter] returns, the
    filter keeps the text it was given and its expected version is the
    number 1 or the number 2. *)
Theorem HttpVersionFilter_constructor_fields (Events : Type) (filter : jsstring)
    (fields : HttpVersionFilterFields) :
  HttpVersionFilter_constructor Events filter = Returns fields ->
  HttpVersionFilter_filterString fields = filter /\
  (HttpVersionFilter_expectedVersion fields = Num 1 \/
   HttpVersionFilter_expectedVersion fields = Num 2).
Proof.
  unfold HttpVersionFilter_constructor.
  destruct (parseFilter (HttpVersionFilter Events) filter) as [values|e] eqn:E;
    [|discriminate].
  cbn [bind].
  unfold HttpVersionFilter in E. apply parseFilter_three in E.
  destruct E as [v1 [v2 [v3 [i2 [i3 [-> [_ [_ H3]]]]]]]].
  apply StringOptionsSyntax_parse_option in H3.
  destruct H3 as [s [o [-> [Ho [_ Hl]]]]].
  cbn [nth_error]. intros H; injection H as <-.
  cbn [HttpVersionFilter_filterString HttpVersionFilter_expectedVersion].
  split; [reflexivity|].
  assert (s = o).
  { apply toLowerCase_uncased; [|assumption].
    destruct Ho as [<-|[<-|[]]]; repeat constructor. }
  subst s.
  destruct Ho as [<-|[<-|[]]]; [left | right]; reflexivity.
Qed.

(** The version filter built from [httpversion=2]. *)
Lemma HttpVersionFilter_constructor_fields_witness :
  Num 2 = Num 1 \/ Num 2 = Num 2.
Proof.
  apply (proj2 (@HttpVersionFilter_constructor_fields unit
                  "httpversion=2"%string
                  {| HttpVersionFilter_filterString := "httpversion=2"%string;
                     HttpVersionFilter_expectedVersion := Num 2 |}
                  eq_refl)).
Defined.

(** ** Partial matches can be completed *)

Lemma survivingResults_partial (options : list jsstring) (value : jsstring)
    (index c : nat) :
  StringOptionsSyntax_match options value index =
    Some {| type := partial; consumed := c |} ->
  exists option, In option options /\
    FixedStringSyntax_match option value index =
      Some {| type := partial; consumed := c |}.
Proof.
  rewrite StringOptionsSyntax_match_surviving. intros H.
  apply maxBy_greatest in H. destruct H as [Hin _].
  now apply survivingResults_present in Hin.
Qed.

(** X23. A partial match of a [StringOptionsSyntax] has consumed the input
    up to its end, and there is an option whose part not yet typed, once
    appended, makes the part match that whole option in full. *)
Theorem StringOptionsSyntax_partial_extends {S : Type} (options : list jsstring)
    (value : jsstring) (index c : nat) :
  index <= length value ->
  match_ (StringOptionsSyntax (S := S) options) value index =
    Some {| type := partial; consumed := c |} ->
  index + c = length value /\
  exists option,
    In option options /\
    match_ (StringOptionsSyntax (S := S) options)
      (value ++ skipn c option) index =
    Some {| type := full; consumed := length option |}.
Proof.
  simpl. intros Hi H. apply survivingResults_partial in H.
  destruct H as [o [Ho Hm]].
  pose proof (FixedStringSyntax_match_consumed_le _ _ _ Hm) as [_ Hc].
  simpl in Hc.
  destruct (FixedStringSyntax_match_partial_extends _ _ Hi Hm) as [Hend Hfull].
  split; [exact Hend|]. exists o. split; [assumption|].
  apply StringOptionsSyntax_match_whole_option; [assumption | exact Hfull |].
  rewrite length_app, length_skipn. lia.
Qed.

(** The status filter's operators on [status!]. *)
Lemma StringOptionsSyntax_partial_extends_witness :
  6 + 1 = 7 /\
  exists option,
    In option numberOperations /\
    match_ (StringOptionsSyntax (S := unit) numberOperations)
      ("status!"%string ++ skipn 1 option) 6 =
    Some {| type := full; consumed := length option |}.
Proof.
  apply (@StringOptionsSyntax_partial_extends unit numberOperations
           "status!"%string 6 1).
  - simpl. lia.
  - reflexivity.
Defined.

(** X24. A [StringSyntax] answers with a partial match only at the very end
    of the input, with nothing consumed and the empty string not allowed;
    appending any non-empty text of allowed characters then gives a full
    match of that text. *)
Theorem StringSyntax_partial_extends {S : Type} (templateText : jsstring)
    (options : StringSyntaxOptions S) (value : jsstring) (index c : nat) :
  match_ (StringSyntax templateText options) value index =
    Some {| type := partial; consumed := c |} ->
  c = 0 /\ index = length value /\ allowEmpty options = false /\
  forall text,
    text <> [] ->
    Forall (fun x => allowedBy (allowedCharRanges options) x = true) text ->
    match_ (StringSyntax templateText options) (value ++ text) index =
    Some {| type := full; consumed := length text |}.
Proof.
  simpl. rewrite StringSyntax_match_run.
  destruct (runAt (allowedCharRanges options) value index) as [|x run];
    [|discriminate].
  destruct (Nat.eqb_spec index (length value)) as [Ei|Ei]; [|discriminate].
  destruct (allowEmpty options) eqn:Ea; [discriminate|].
  intros H; injection H as <-. repeat split; [assumption|].
  intros text Hne Hall. subst index.
  replace (value ++ text) with (replaceFrom value (length value) text)
    by (unfold replaceFrom; now rewrite firstn_all).
  apply StringSyntax_match_replaced; [lia | assumption | now left].
Qed.

(** The method filter's operand at the end of [method=], then [GET]. *)
Lemma StringSyntax_partial_extends_witness :
  let options := {| allowEmpty := false;
                    allowedChars := Some [ (97, 122); (65, 90) ];
                    suggestionGenerator := @None (Generator unit) |} in
  match_ (StringSyntax "method"%string options)
    ("method="%string ++ "GET"%string) 7 =
  Some {| type := full; consumed := 3 |}.
Proof.
  intros options.
  refine (proj2 (proj2 (proj2
            (@StringSyntax_partial_extends unit "method"%string options
               "method="%string 7 0 eq_refl))) "GET"%string _ _).
  - discriminate.
  - repeat constructor.
Defined.

Lemma takeWhile_all_of {A : Type} (p : A -> bool) (l : list A) :
  length (takeWhile p l) = length l -> takeWhile p l = l.
Proof.
  intros H. rewrite <- (takeWhile_prefix p l), H. apply firstn_all.
Qed.

(** X25. When a [FixedLengthNumberSyntax] answers with a partial match that
    reaches the end of the input, appending zeros up to the required
    length gives a full match. *)
Theorem FixedLengthNumberSyntax_partial_extends {S : Type} (requiredLength : nat)
    (generator : option (Generator S)) (value : jsstring) (index c : nat) :
  match_ (FixedLengthNumberSyntax requiredLength generator) value index =
    Some {| type := partial; consumed := c |} ->
  index + c = length value ->
  c < requiredLength /\
  match_ (FixedLengthNumberSyntax requiredLength generator)
    (value ++ repeat "0"%char (requiredLength - c)) index =
  Some {| type := full; consumed := requiredLength |}.
Proof.
  simpl. rewrite FixedLengthNumberSyntax_match_digits. cbv zeta.
  destruct ((length (digitsAt value index) =? 0) && negb (index =? length value));
    [discriminate|].
  destruct (length (digitsAt value index) =? requiredLength); [discriminate|].
  destruct (Nat.ltb_spec (length (digitsAt value index)) requiredLength)
    as [Hlt|Hge]; [|discriminate].
  intros H Hend. injection H as <-. split; [assumption|].
  assert (Hrun : digitsAt value index = skipn index value).
  { unfold digitsAt, runAt. apply takeWhile_all_of.
    fold (runAt [NUMBER_CHARS] value index). fold (digitsAt value index).
    rewrite length_skipn. lia. }
  replace (value ++ repeat "0"%char (requiredLength - length (digitsAt value index)))
    with (replaceFrom value index
            (digitsAt value index ++
             repeat "0"%char (requiredLength - length (digitsAt value index)))).
  - apply FixedLengthNumberSyntax_match_replaced.
    + lia.
    + apply Forall_app. split; [apply digitsAt_digits|].
      apply Forall_forall. intros x Hx. apply repeat_spec in Hx. now subst x.
    + rewrite length_app, repeat_length. lia.
  - unfold replaceFrom. rewrite app_assoc, Hrun, firstn_skipn. reflexivity.
Qed.

(** The status filter's operand in [status=4], then two zeros. *)
Lemma FixedLengthNumberSyntax_partial_extends_witness :
  1 < 3 /\
  match_ (FixedLengthNumberSyntax (S := unit) 3 None)
    ("status=4"%string ++ repeat "0"%char (3 - 1)) 7 =
  Some {| type := full; consumed := 3 |}.
Proof.
  apply (@FixedLengthNumberSyntax_partial_extends unit 3 None
           "status=4"%string 7 1).
  - reflexivity.
  - reflexivity.
Defined.

(** ** Templates among the suggestions *)

Lemma plain_not_template (l : list jsstring) :
  Forall (fun s => template s = false) (map plain l).
Proof. apply Forall_forall. intros s Hs. apply in_map_iff in Hs. now destruct Hs as [g [<- _]]. Qed.

(** X26. The suggestions of a [StringSyntax] and of a
    [FixedLengthNumberSyntax] are never empty, and only the first of them
    can be a template: it is one exactly when no allowed character (no
    digit) stands at [index], and it then inserts nothing. *)
Theorem template_comes_first {S : Type} (value : jsstring) (index : nat)
    (context : option S) :
  (forall templateText options, exists head rest,
     getSuggestions (StringSyntax templateText options) value index context =
       head :: rest /\
     Forall (fun s => template s = false) rest /\
     (template head = true <->
      runAt (allowedCharRanges options) value index = []) /\
     (template head = true -> inserted head = [])) /\
  (forall requiredLength generator, exists head rest,
     getSuggestions (FixedLengthNumberSyntax requiredLength generator)
       value index context = head :: rest /\
     Forall (fun s => template s = false) rest /\
     (template head = true <-> digitsAt value index = []) /\
     (template head = true -> inserted head = [])).
Proof.
  split.
  - intros templateText options. simpl. unfold StringSyntax_getSuggestions.
    rewrite getStringAt_run.
    set (suggestions := match context, suggestionGenerator options with
                        | Some ctx, Some generator => _
                        | _, _ => []
                        end).
    assert (Hs : Forall (fun s => template s = false) suggestions).
    { unfold suggestions. destruct context; [|constructor].
      destruct (suggestionGenerator options); [|constructor].
      apply plain_not_template. }
    destruct (runAt (allowedCharRanges options) value index) as [|c run].
    + eexists. exists suggestions. split.
      * destruct (index =? length value); reflexivity.
      * repeat split; auto.
    + eexists. exists suggestions. split; [reflexivity|].
      repeat split; auto; discriminate.
  - intros requiredLength generator. simpl.
    unfold FixedLengthNumberSyntax_getSuggestions.
    rewrite getNumberAt_digits.
    pose proof (plain_not_template
                  (FixedLengthNumberSyntax_candidates requiredLength generator
                     value index context)) as Hs.
    destruct (digitsAt value index) as [|c run].
    + eexists. eexists. split.
      * destruct (index =? length value); reflexivity.
      * repeat split; auto.
    + destruct (map plain
                  (FixedLengthNumberSyntax_candidates requiredLength generator
                     value index context)) as [|s0 rest].
      * eexists. exists []. split; [reflexivity|].
        repeat split; auto; discriminate.
      * exists s0, rest. split; [reflexivity|].
        inversion Hs; subst.
        repeat split; auto; try discriminate; congruence.
Qed.
